(** * Live post composition engine of the imageboard client

    A shallow embedding of [src/client/posts/posting/form.ts]: the
    [FormModel] mixin (append, backspace, splice, parseInput, commitChar,
    commitBackspace, lastBodyLine), the parts of [FormView] the model calls
    (trimInput, terminateLine), [extractAttrs] and the [OPFormModel]
    constructor.

    JavaScript strings are sequences of UTF-16 code units, so a string is a
    list of code units and [length], [slice] and [charCodeAt] work on code
    units, as they do in the browser.  Numbers that the code only ever uses
    as small integers are integers here. *)

From Stdlib Require Import ZArith Lia Ascii.
From stdpp Require Import base option list gmap strings.

Open Scope Z_scope.

(** ** JavaScript strings *)

Module JS.

(** One UTF-16 code unit. *)
Definition codeunit := Z.

Definition jsstring := list codeunit.

(** The line feed, the code unit of the string literal "\n". *)
Definition NL : codeunit := 10.

(** [s.length] *)
Definition len (s : jsstring) : Z := Z.of_nat (length s).

(** How [String.prototype.slice] resolves a relative index: a negative
    index counts from the end, and both ends are clamped to [0, len]. *)
Definition rel_index (l i : Z) : Z :=
  if i <? 0 then Z.max (l + i) 0 else Z.min i l.

(** [s.slice(start, stop)] *)
Definition slice (s : jsstring) (start stop : Z) : jsstring :=
  let from := rel_index (len s) start in
  let to := rel_index (len s) stop in
  take (Z.to_nat (to - from)) (drop (Z.to_nat from) s).

(** [s.slice(start)]: the end defaults to the length. *)
Definition slice_from (s : jsstring) (start : Z) : jsstring :=
  slice s start (len s).

(** What a number-valued expression handed to [send] can be. *)
Inductive payload :=
  | PNum (n : Z)
  | PNaN
  | PNull.

(** [s.charCodeAt(0)]: the first code unit, NaN on the empty string. *)
Definition charCodeAt0 (s : jsstring) : payload :=
  match s with
  | [] => PNaN
  | c :: _ => PNum c
  end.

(** [String.fromCharCode(code)]: one code unit, the argument taken
    modulo 2^16. *)
Definition fromCharCode (code : Z) : jsstring := [code `mod` 65536].

(** [s.split("\n")]: the pieces between line feeds; never empty, the
    empty string splits into one empty piece. *)
Fixpoint split_nl (s : jsstring) : list jsstring :=
  match s with
  | [] => [[]]
  | c :: r =>
      if decide (c = NL) then [] :: split_nl r
      else match split_nl r with
           | [] => [[c]]
           | h :: t => (c :: h) :: t
           end
  end.

End JS.

Import JS.

(** ** The form model and the part of its view it drives *)

(** The two commands of [message] that the form sends. *)
Inductive message_type := MsgAppend | MsgBackspace.

(** One call [send(type, data)] on the connection. *)
Record sent_message := Send { msg_type : message_type; msg_data : payload }.

(** What [FormView.terminateLine] does with its collaborators: the call
    of [parseTerminatedLine] with the line it read off the model
    ([None] is JavaScript's undefined), and the scheduled read and write
    that look up [span:nth-child(num)] under the blockquote and replace
    the element found with the fragment made of the parsed line.  The
    log holds what was scheduled; what it does to the blockquote when it
    runs is [DOM.flush], below. *)
Inductive view_event :=
  | ParseTerminatedLine (line : option jsstring)
  | ReplaceNthSpan (num : Z).

(** The fields of a form model that the mixin reads and writes, with the
    value of the view's [$input] and the effects on the outside
    (connection and view) collected in order, oldest first. *)
Record FormModel := mkFormModel {
  bodyLength : Z;            (* compound length of the input text body *)
  parsedLines : Z;           (* closed, committed and parsed lines *)
  body : jsstring;
  line : jsstring;           (* state.line *)
  input : jsstring;          (* view.$input.value *)
  sent : list sent_message;  (* calls of send *)
  viewlog : list view_event; (* calls into the parser and the DOM *)
}.

Definition MAX_BODY_LENGTH : Z := 2000.

Section FormModel.

(** [spliceLine] is only declared in the mixin, with the type
    [(line: string, msg: SpliceResponse) => string]; it and the type of the
    server's splice message are parameters. *)
Variable SpliceResponse : Type.
Variable spliceLine : jsstring -> SpliceResponse -> jsstring.

(** [lastBodyLine]: the last piece of the body split at line feeds.
    [lines[lines.length - 1]] is undefined on an empty array. *)
Definition lastBodyLine (m : FormModel) : option jsstring :=
  let lines := split_nl (body m) in
  let last := Z.of_nat (length lines) - 1 in
  if decide (last < 0) then None else lines !! Z.to_nat last.

(** [FormView.trimInput] *)
Definition trimInput (m : FormModel) (length : Z) : FormModel :=
  mkFormModel (bodyLength m) (parsedLines m) (body m) (line m)
    (slice (input m) 0 (- length)) (sent m) (viewlog m).

(** [FormView.terminateLine] *)
Definition terminateLine (m : FormModel) (num : Z) : FormModel :=
  mkFormModel (bodyLength m) (parsedLines m) (body m) (line m) (input m)
    (sent m)
    (viewlog m ++ [ParseTerminatedLine (lastBodyLine m); ReplaceNthSpan num]).

(** [append]: the argument [this.parsedLines++] hands the old count to
    [terminateLine] and stores the incremented one before the call. *)
Definition append (m : FormModel) (code : Z) : FormModel :=
  let char := fromCharCode code in
  let m1 :=
    if decide (char = [NL]) then
      let num := parsedLines m in
      terminateLine
        (mkFormModel (bodyLength m) (parsedLines m + 1) (body m) (line m)
           (input m) (sent m) (viewlog m))
        num
    else m in
  mkFormModel (bodyLength m1) (parsedLines m1) (body m1 ++ char) (line m1)
    (input m1) (sent m1) (viewlog m1).

(** [backspace] *)
Definition backspace (m : FormModel) : FormModel :=
  mkFormModel (bodyLength m) (parsedLines m) (slice (body m) 0 (-1)) (line m)
    (input m) (sent m) (viewlog m).

(** [splice]: the spliced line that [spliceLine] returns is dropped. *)
Definition splice (m : FormModel) (msg : SpliceResponse) : FormModel :=
  match lastBodyLine m with
  | Some l => let _ := spliceLine l msg in m
  | None => m
  end.

(** [commitChar] *)
Definition commitChar (m : FormModel) (char : jsstring) : FormModel :=
  mkFormModel (bodyLength m + 1) (parsedLines m) (body m) (line m ++ char)
    (input m) (sent m ++ [Send MsgAppend (charCodeAt0 char)]) (viewlog m).

(** [commitBackspace] *)
Definition commitBackspace (m : FormModel) : FormModel :=
  mkFormModel (bodyLength m - 1) (parsedLines m) (body m)
    (slice (line m) 0 (-1)) (input m)
    (sent m ++ [Send MsgBackspace PNull]) (viewlog m).

(** The excess over the limit that [parseInput] computes first. *)
Definition exceeding (m : FormModel) (val : jsstring) : Z :=
  bodyLength m + (len val - len (line m)) - MAX_BODY_LENGTH.

(** What [parseInput] does once the value fits: one append, one
    backspace, or nothing. *)
Definition classify (m : FormModel) (val : jsstring) : FormModel :=
  let old := line m in
  let lenDiff := len val - len old in
  if decide (lenDiff = 1 ∧ slice val 0 (-1) = old) then
    commitChar m (slice_from val (-1))
  else if decide (lenDiff = -1 ∧ slice old 0 (-1) = val) then
    commitBackspace m
  else m.

(** [parseInput].  The source calls itself on the shortened value and
    nothing in it bounds the depth, so the depth is bounded here by
    [fuel], the number of nested calls allowed; [None] is a call chain
    cut short. *)
Fixpoint parseInput (fuel : nat) (m : FormModel) (val : jsstring)
  : option FormModel :=
  match fuel with
  | O => None
  | S fuel' =>
      let exc := exceeding m val in
      if decide (exc > 0) then
        parseInput fuel' (trimInput m exc) (slice val 0 (- exc))
      else Some (classify m val)
  end.

End FormModel.

Arguments splice {SpliceResponse} spliceLine m msg.

(** ** Composition steps *)

(** The listener that [renderInputs] installs on [$input]: the browser
    has put the new text in [$input.value], and the listener hands that
    value to [parseInput]. *)
Definition inputEvent (fuel : nat) (m : FormModel) (val : jsstring)
  : option FormModel :=
  parseInput fuel
    (mkFormModel (bodyLength m) (parsedLines m) (body m) (line m) val
       (sent m) (viewlog m))
    val.

(** Modelled from the spec: the committed line [state.line] of a form
    just made.  The state object is made by the constructor of [OP], which
    is not in this file; the editable line state is created when the post
    becomes editable, and with the counter at 0 the counter's invariant
    (lines already sent plus the length of the committed line) leaves the
    empty line. *)
Definition initial_line : jsstring := [].

(** The form as the [OPFormModel] constructor leaves it:
    [this.bodyLength = this.parsedLines = 0], the body copied from the old
    model, nothing typed or sent yet. *)
Definition fresh (b : jsstring) : FormModel :=
  mkFormModel 0 0 b initial_line [] [] [].

(** A run of input events; the states after each event, in order. *)
Fixpoint compose (fuel : nat) (m : FormModel) (vals : list jsstring)
  : option (list FormModel) :=
  match vals with
  | [] => Some []
  | val :: rest =>
      m' ← inputEvent fuel m val;
      ms ← compose fuel m' rest;
      Some (m' :: ms)
  end.

(** The ways into the engine: what the server's messages call (append,
    backspace, splice) and what the input listener calls (parseInput,
    which in turn calls commitChar and commitBackspace). *)
Inductive operation (SpliceResponse : Type) :=
  | OpAppend (code : Z)
  | OpBackspace
  | OpSplice (msg : SpliceResponse)
  | OpParseInput (val : jsstring).

Arguments OpAppend {SpliceResponse} code.
Arguments OpBackspace {SpliceResponse}.
Arguments OpSplice {SpliceResponse} msg.
Arguments OpParseInput {SpliceResponse} val.

Section Operations.

Context {SpliceResponse : Type}.
Variable spliceLine : jsstring -> SpliceResponse -> jsstring.

Definition perform (fuel : nat) (m : FormModel)
    (op : operation SpliceResponse) : option FormModel :=
  match op with
  | OpAppend code => Some (append m code)
  | OpBackspace => Some (backspace m)
  | OpSplice msg => Some (splice spliceLine m msg)
  | OpParseInput val => parseInput fuel m val
  end.

Fixpoint run (fuel : nat) (m : FormModel)
    (ops : list (operation SpliceResponse)) : option FormModel :=
  match ops with
  | [] => Some m
  | op :: rest => m' ← perform fuel m op; run fuel m' rest
  end.

(** Whether an operation is an append of the line feed. *)
Definition terminates_line (op : operation SpliceResponse) : bool :=
  match op with
  | OpAppend code => bool_decide (fromCharCode code = [NL])
  | _ => false
  end.

(** The number of line feeds appended by a list of operations. *)
Definition terminated_lines (ops : list (operation SpliceResponse)) : Z :=
  Z.of_nat (length (filter (λ op, terminates_line op = true) ops)).

End Operations.

(** Typing the letter a [k] times, one input event for each: the values
    of [$input] are a, aa, aaa and so on. *)
Definition typing (k : nat) : list jsstring := (λ i, repeat 97 i) <$> seq 1 k.

(** The form after [k] letters typed into a fresh form. *)
Definition typed_form (k : nat) : FormModel :=
  mkFormModel (Z.of_nat k) 0 [] (repeat 97 k) (repeat 97 k)
    (repeat (Send MsgAppend (PNum 97)) k) [].

(** The form after 2000 letters: the counter is at the limit. *)
Definition full_form : FormModel := typed_form 2000.

(** The state [parseInput] ends in when the counter is no further above
    the limit than the committed line is long. *)
Definition parsed (m : FormModel) (val : jsstring) : FormModel :=
  let exc := exceeding m val in
  if decide (exc > 0) then classify (trimInput m exc) (slice val 0 (- exc))
  else classify m val.

(** The committed line is never longer than the counter, and the counter
    never above the limit. *)
Definition within_limit (m : FormModel) : Prop :=
  len (line m) <= bodyLength m ∧ bodyLength m <= MAX_BODY_LENGTH.

(** ** Display to Composing: the [OPFormModel] constructor *)

Module Lifecycle.

(** Objects live in a store and are known by their place in it, so that
    two models with the same attributes are still two models. *)
Abbreviation loc := nat (only parsing).

(** The values of a model's attributes, as far as [typeof] tells them
    apart. *)
Inductive value :=
  | VNum (n : Z)
  | VStr (s : jsstring)
  | VRef (l : loc)
  | VFun (name : string).

(** [typeof v === "function"] *)
Definition is_function (v : value) : bool :=
  match v with
  | VFun _ => true
  | _ => false
  end.

(** [extractAttrs]: the loop over the keys of [src] that [for ... in]
    enumerates, keeping what is not a function. *)
Definition extractAttrs (src : gmap string value) : gmap string value :=
  map_fold
    (λ key v attrs, if is_function v then attrs else <[key:=v]> attrs)
    ∅ src.

(** The root element [el] of a view; every view makes its own. *)
Inductive element := RootOf (view : loc).

#[global] Instance element_eq_dec : EqDecision element.
Proof. solve_decision. Defined.

(** A view: whether it still follows its model's updates. *)
Record View := mkView { bound : bool }.

(** The models and views there are, the post registry [posts], the
    elements attached to the page in document order, and the two
    exported variables [postForm] and [postModel]. *)
Record World := mkWorld {
  models : list (gmap string value);
  views : list View;
  posts : gmap Z loc;
  document : list element;
  postForm : option loc;
  postModel : option loc;
}.

(** The [id] attribute of a model. *)
Definition model_id (o : gmap string value) : option Z :=
  match o !! "id"%string with
  | Some (VNum n) => Some n
  | _ => None
  end.

(** The [view] attribute of a model. *)
Definition model_view (o : gmap string value) : option loc :=
  match o !! "view"%string with
  | Some (VRef v) => Some v
  | _ => None
  end.

(** Modelled from the spec: [View.unbind], not in this file; the old view
    is detached from further updates. *)
Definition unbind (w : World) (v : loc) : World :=
  mkWorld (models w) (<[v := mkView false]> (views w)) (posts w)
    (document w) (postForm w) (postModel w).

(** Modelled from the spec: the constructor of [OP], not in this file;
    the new model is a new object that holds the attributes it is
    given. *)
Definition new_OP (w : World) (attrs : gmap string value) : World * loc :=
  (mkWorld (models w ++ [attrs]) (views w) (posts w) (document w)
     (postForm w) (postModel w),
   length (models w)).

(** Modelled from the spec: [posts.addOP], not in this file; the model
    is registered under its own id, in place of what was registered under
    that id. *)
Definition addOP (w : World) (model : loc) : option World :=
  o ← models w !! model;
  id ← model_id o;
  Some (mkWorld (models w) (views w) (<[id := model]> (posts w))
          (document w) (postForm w) (postModel w)).

(** Modelled from the spec: the constructor of [OPFormView] and of the
    [PostView] under it, of which only [renderInputs] is in this file; a
    new view with a root element of its own, bound to its model. *)
Definition new_OPFormView (w : World) (model : loc) : World * loc :=
  (mkWorld (models w) (views w ++ [mkView true]) (posts w) (document w)
     (postForm w) (postModel w),
   length (views w)).

(** [old.replaceWith(new)] on elements of the page. *)
Definition replaceWith (w : World) (old new : element) : World :=
  mkWorld (models w) (views w) (posts w)
    ((λ e, if decide (e = old) then new else e) <$> document w)
    (postForm w) (postModel w).

(** Assignment of an attribute of a model. *)
Definition set_attr (w : World) (model : loc) (key : string) (v : value)
  : World :=
  mkWorld (alter (λ o, <[key:=v]> o) model (models w)) (views w) (posts w)
    (document w) (postForm w) (postModel w).

(** The constructor of [OPFormModel], statement by statement; the result
    is the world after each statement, in order, or [None] where the
    constructor throws (no model under the id, or a model without a
    view). *)
Definition OPFormModel_constructor (w : World) (id : Z)
  : option (list World) :=
  oldModel ← posts w !! id;
  old ← models w !! oldModel;
  oldView ← model_view old;
  _ ← views w !! oldView;
  let w1 := unbind w oldView in
  let '(w2, this) := new_OP w1 (extractAttrs old) in
  w3 ← addOP w2 this;
  let '(w4, form) := new_OPFormView w3 this in
  let w5 := mkWorld (models w4) (views w4) (posts w4) (document w4)
              (Some form) (postModel w4) in
  let w6 := mkWorld (models w5) (views w5) (posts w5) (document w5)
              (postForm w5) (Some this) in
  let w7 := replaceWith w6 (RootOf oldView) (RootOf form) in
  let w8 := set_attr w7 this "parsedLines" (VNum 0) in
  let w9 := set_attr w8 this "bodyLength" (VNum 0) in
  Some [w1; w2; w3; w4; w5; w6; w7; w8; w9].

End Lifecycle.

(** ** The blockquote of the view, and the scheduled replacement *)

Module DOM.

(** A node of the page: text, or an element with its tag name and its
    child nodes in document order. *)
Inductive node :=
  | Text (data : jsstring)
  | Element (tag : string) (children : list node).

Section Siblings.

(** The search below each sibling, and the replacement below it. *)
Variable query : node -> option node.
Variable replace : node -> option node.

(** The search through the child nodes of one parent for
    [span:nth-child(num)], from the child element with index [i] on:
    [nth-child] counts the child elements of a parent from 1 and does not
    count text; an element comes before what is below it, and that before
    its next sibling. *)
Fixpoint query_siblings (num i : Z) (nodes : list node) : option node :=
  match nodes with
  | [] => None
  | Text _ :: rest => query_siblings num i rest
  | (Element tag _ as el) :: rest =>
      if decide (tag = "span"%string ∧ i = num) then Some el
      else
        match query el with
        | Some found => Some found
        | None => query_siblings num (i + 1) rest
        end
  end.

(** The same walk, putting the nodes of [frag] in the place of the
    element found. *)
Fixpoint replace_siblings (num i : Z) (frag nodes : list node)
  : option (list node) :=
  match nodes with
  | [] => None
  | Text data :: rest => (Text data ::.) <$> replace_siblings num i frag rest
  | (Element tag _ as el) :: rest =>
      if decide (tag = "span"%string ∧ i = num) then Some (frag ++ rest)
      else
        match replace el with
        | Some el' => Some (el' :: rest)
        | None => (el ::.) <$> replace_siblings num (i + 1) frag rest
        end
  end.

End Siblings.

(** [parent.querySelector(`span:nth-child(${num})`)]: the first element
    below [parent], in document order, that the selector matches; [None]
    is null. *)
Fixpoint querySelector (num : Z) (parent : node) : option node :=
  match parent with
  | Text _ => None
  | Element _ children => query_siblings (querySelector num) num 1 children
  end.

(** The read and the write that [terminateLine] schedules, run on the
    blockquote: [el = $blockquote.querySelector(...)], then
    [el.replaceWith(frag)].  The result is the blockquote with the nodes
    of the fragment in the place of [el]; [None] is the TypeError of
    [el.replaceWith] when [el] is null. *)
Fixpoint replaceNthSpan (num : Z) (frag : list node) (parent : node)
  : option node :=
  match parent with
  | Text _ => None
  | Element tag children =>
      Element tag
        <$> replace_siblings (replaceNthSpan num frag) num 1 frag children
  end.

(** What [terminateLine] has scheduled, run in order on the blockquote.
    [render] stands for [makeFrag] of what [parseTerminatedLine] returns
    for a line; each replacement puts in the fragment of the line parsed
    just before it.  [None]: one of the writes threw. *)
Fixpoint flush (render : option jsstring -> list node) (frag : list node)
    (log : list view_event) (blockquote : node) : option node :=
  match log with
  | [] => Some blockquote
  | ParseTerminatedLine l :: rest => flush render (render l) rest blockquote
  | ReplaceNthSpan num :: rest =>
      blockquote' ← replaceNthSpan num frag blockquote;
      flush render frag rest blockquote'
  end.

End DOM.

(** ** The other side of the connection *)

#[global] Instance message_type_eq_dec : EqDecision message_type.
Proof. solve_decision. Defined.

(** A code unit of a well-formed string: 16 bits. *)
Definition code_unit (c : Z) : Prop := 0 <= c < 65536.

Definition well_formed (s : jsstring) : Prop := Forall code_unit s.

(** The number that [String.fromCharCode] makes of what a message
    carries: NaN and null count as 0. *)
Definition payload_code (p : payload) : Z :=
  match p with
  | PNum n => n
  | PNaN | PNull => 0
  end.

(** What a mirror of the post does with a message that reaches it as it
    was sent: an append message calls [append] with the code it carries,
    a backspace message calls [backspace]. *)
Definition receive (m : FormModel) (msg : sent_message) : FormModel :=
  match msg_type msg with
  | MsgAppend => append m (payload_code (msg_data msg))
  | MsgBackspace => backspace m
  end.

(** The messages of a form, received in the order they were sent. *)
Definition replay (msgs : list sent_message) (m : FormModel) : FormModel :=
  foldl receive m msgs.

(** A run of appends, as a mirror gets them while the author types. *)
Definition appended (m : FormModel) (codes : list Z) : FormModel :=
  foldl append m codes.

(** The messages of one kind among those sent. *)
Definition count_sent (t : message_type) (msgs : list sent_message) : Z :=
  Z.of_nat (length (filter (λ msg, msg_type msg = t) msgs)).

(** The line feeds of a string. *)
Definition nl_count (s : jsstring) : Z :=
  Z.of_nat (length (filter (λ c, c = NL) s)).

(** The indices that [terminateLine] was called with, and the lines it
    handed to the parser, oldest first. *)
Definition replaced_indices (log : list view_event) : list Z :=
  omap (λ e, match e with ReplaceNthSpan num => Some num | _ => None end) log.

Definition parser_lines (log : list view_event) : list (option jsstring) :=
  omap (λ e, match e with ParseTerminatedLine l => Some l | _ => None end) log.

(** ** The board navigation of the templates package *)

Module Templates.

#[local] Open Scope string_scope.

(** The double quote, as a string. *)
Definition quote : string := String "034"%char EmptyString.

(** The part of the configuration that [boardNavigation] reads:
    [config.Get().Boards] with its fields [Enabled], [Staff] and [Psuedo]
    (pairs of a name and a URL). *)
Record Boards := mkBoards {
  Enabled : list string;
  Staff : string;
  Psuedo : list (string * string);
}.

(** [boardLink]: [%v] prints a string as it is. *)
Definition boardLink (notFirst : bool) (name url : string) : string :=
  let link := "<a href=" +:+ quote +:+ url +:+ quote +:+ ">" +:+ name +:+ "</a>" in
  if notFirst then " / " +:+ link else link.

(** The first loop of [boardNavigation], from index [i] on. *)
Fixpoint board_links (staff : string) (i : nat) (boards : list string)
    (html : string) : string :=
  match boards with
  | [] => html
  | board :: rest =>
      if decide (board = staff) then board_links staff (S i) rest html
      else
        board_links staff (S i) rest
          (html +:+ boardLink (bool_decide (0 < i)%nat) board
                      ("../" +:+ board +:+ "/"))
  end.

(** The second loop of [boardNavigation]. *)
Fixpoint pseudo_links (links : list (string * string)) (html : string)
  : string :=
  match links with
  | [] => html
  | link :: rest => pseudo_links rest (html +:+ boardLink true link.1 link.2)
  end.

(** [boardNavigation] *)
Definition boardNavigation (conf : Boards) : string :=
  let html := "<b id=" +:+ quote +:+ "navTop" +:+ quote +:+ ">[" in
  let html := board_links (Staff conf) 0 (Enabled conf ++ ["all"]) html in
  let html := pseudo_links (Psuedo conf) html in
  html +:+ "]</b>".

(** A link as [boardLink] writes it when it is the first. *)
Definition plain_link (name url : string) : string :=
  boardLink false name url.

(** The links of the navigation, in order: the enabled boards and the
    board of all boards, but for the staff board, then the links of the
    configuration. *)
Definition nav_links (conf : Boards) : list string :=
  (((λ board, plain_link board ("../" +:+ board +:+ "/"))
      <$> filter (λ board, board <> Staff conf) (Enabled conf ++ ["all"])%list)
   ++ ((λ link, plain_link link.1 link.2) <$> Psuedo conf))%list.

(** Links written one after the other, each after a separator. *)
Definition separated (links : list string) : string :=
  foldr (λ link html, " / " +:+ link +:+ html) EmptyString links.

(** The two ends of the navigation. *)
Definition nav_open : string :=
  "<b id=" +:+ quote +:+ "navTop" +:+ quote +:+ ">[".

Definition nav_close : string := "]</b>".

(** [Store]: a compiled template and its hash. *)
Record Store := mkStore { HTML : list Byte.byte; Hash : string }.

(** The value of a map of stores under a key it does not hold. *)
Definition zero_Store : Store := mkStore [] EmptyString.

(** [Get], on the map [resources]. *)
Definition Get (resources : gmap string Store) (name : string) : Store :=
  default zero_Store (resources !! name).

(** [Set], on the map [resources]. *)
Definition Set_ (resources : gmap string Store) (name : string) (s : Store)
  : gmap string Store :=
  <[name := s]> resources.

End Templates.

(** ** Facts about JavaScript strings *)

Section StringFacts.

Implicit Types s t : jsstring.

Lemma len_nonneg s : 0 <= len s.
Proof. unfold len. lia. Qed.

Lemma len_app s t : len (s ++ t) = len s + len t.
Proof. unfold len. rewrite length_app. lia. Qed.

Lemma len_nil_inv s : len s = 0 -> s = [].
Proof. unfold len. destruct s; simpl; [done | lia]. Qed.

(** Dropping from the end: [s.slice(0, -k)] keeps the first
    [max (len s - k) 0] code units. *)
Lemma slice_0_neg s k :
  0 < k -> slice s 0 (- k) = take (Z.to_nat (len s - k)) s.
Proof.
  intros Hk. unfold slice, rel_index.
  assert ((- k <? 0) = true) as -> by (apply Z.ltb_lt; lia).
  assert ((0 <? 0) = false) as -> by done.
  pose proof (len_nonneg s).
  rewrite Z.min_l by lia. simpl. f_equal. lia.
Qed.

Lemma len_slice_0_neg s k :
  0 < k -> len (slice s 0 (- k)) = Z.max (len s - k) 0.
Proof.
  intros Hk. rewrite slice_0_neg by done.
  unfold len. rewrite length_take. lia.
Qed.

Lemma slice_0_m1 s : slice s 0 (-1) = take (Z.to_nat (len s - 1)) s.
Proof. apply (slice_0_neg s 1). done. Qed.

(** Removing exactly what was added at the end gives the old string. *)
Lemma slice_app_drop s t : t <> [] -> slice (s ++ t) 0 (- len t) = s.
Proof.
  intros Ht.
  assert (0 < len t) by (unfold len; destruct t; simpl; [done | lia]).
  rewrite slice_0_neg by done. rewrite len_app.
  replace (Z.to_nat (len s + len t - len t)) with (length s)
    by (unfold len; lia).
  by rewrite take_app_length.
Qed.

Lemma slice_drop_last s c : slice (s ++ [c]) 0 (-1) = s.
Proof. apply (slice_app_drop s [c]). done. Qed.

Lemma slice_from_last s c : slice_from (s ++ [c]) (-1) = [c].
Proof.
  unfold slice_from, slice, rel_index. rewrite len_app.
  change (len [c]) with 1. pose proof (len_nonneg s).
  assert ((-1 <? 0) = true) as -> by done.
  assert ((len s + 1 <? 0) = false) as -> by (apply Z.ltb_ge; lia).
  rewrite Z.max_l, Z.min_l by lia.
  replace (Z.to_nat (len s + 1 + -1)) with (length s) by (unfold len; lia).
  rewrite drop_app_length. simpl.
  replace (Z.to_nat (len s + 1 - (len s + 1 + -1))) with 1%nat by lia.
  done.
Qed.

(** A string one longer than [t] whose [slice(0, -1)] is [t] is [t]
    followed by its own last code unit. *)
Lemma slice_drop_last_inv s t :
  len s - len t = 1 -> slice s 0 (-1) = t -> exists c, s = t ++ [c].
Proof.
  intros Hl Hs. rewrite slice_0_m1 in Hs.
  destruct (decide (s = [])) as [-> | Hne].
  - exfalso. change (len []) with 0 in Hl. pose proof (len_nonneg t). lia.
  - destruct (exists_last Hne) as (s' & c & ->). exists c. f_equal.
    rewrite len_app in Hs. change (len [c]) with 1 in Hs.
    replace (Z.to_nat (len s' + 1 - 1)) with (length s') in Hs
      by (unfold len; lia).
    by rewrite take_app_length in Hs.
Qed.

End StringFacts.

(** ** How [parseInput] unfolds *)

Section ParseInputFacts.

Implicit Types (m : FormModel) (val : jsstring) (n : nat).

Lemma parseInput_fits n m val :
  exceeding m val <= 0 -> parseInput (S n) m val = Some (classify m val).
Proof. intros H. simpl. case_decide; [lia | done]. Qed.

Lemma parseInput_exceeds n m val :
  0 < exceeding m val ->
  parseInput (S n) m val =
  parseInput n (trimInput m (exceeding m val))
    (slice val 0 (- exceeding m val)).
Proof. intros H. simpl. case_decide; [done | lia]. Qed.

(** The excess left after the value is shortened by the excess. *)
Lemma exceeding_after_trim m val :
  0 < exceeding m val ->
  exceeding (trimInput m (exceeding m val)) (slice val 0 (- exceeding m val))
  = Z.max 0 (bodyLength m - len (line m) - MAX_BODY_LENGTH).
Proof.
  intros H. unfold exceeding in *. simpl.
  rewrite len_slice_0_neg by done. lia.
Qed.

Lemma parseInput_parsed n m val :
  bodyLength m <= MAX_BODY_LENGTH + len (line m) ->
  parseInput (S (S n)) m val = Some (parsed m val).
Proof.
  intros Hb. unfold parsed. case_decide as Hexc.
  - rewrite parseInput_exceeds by lia. apply parseInput_fits.
    rewrite exceeding_after_trim by lia. lia.
  - apply parseInput_fits. lia.
Qed.

(** Above that, the call chain never ends: every shortened value still
    exceeds. *)
Lemma parseInput_diverges n m val :
  MAX_BODY_LENGTH + len (line m) < bodyLength m -> parseInput n m val = None.
Proof.
  revert m val. induction n as [| n IH]; intros m val Hb; [done |].
  assert (0 < exceeding m val)
    by (unfold exceeding; pose proof (len_nonneg val); lia).
  rewrite parseInput_exceeds by done. apply IH. done.
Qed.

(** The three outcomes of [classify]. *)
Lemma classify_append m c :
  classify m (line m ++ [c]) = commitChar m [c].
Proof.
  unfold classify. rewrite slice_drop_last, slice_from_last, len_app.
  change (len [c]) with 1. case_decide as H; [done |].
  exfalso. apply H. split; [lia | done].
Qed.

Lemma classify_backspace m s c :
  line m = s ++ [c] -> classify m s = commitBackspace m.
Proof.
  intros Hl. unfold classify. rewrite Hl, slice_drop_last, len_app.
  change (len [c]) with 1.
  case_decide as H1; [lia |]. case_decide as H2; [done |].
  exfalso. apply H2. split; [lia | done].
Qed.

Lemma classify_irregular m val :
  ¬ (len val - len (line m) = 1 ∧ slice val 0 (-1) = line m) ->
  ¬ (len val - len (line m) = -1 ∧ slice (line m) 0 (-1) = val) ->
  classify m val = m.
Proof.
  intros H1 H2. unfold classify. case_decide; [done |]. by case_decide.
Qed.

(** [classify] as a case analysis on the shape of the edit. *)
Lemma classify_cases m val :
  (exists c, val = line m ++ [c] ∧ classify m val = commitChar m [c]) ∨
  (exists c, line m = val ++ [c] ∧ classify m val = commitBackspace m) ∨
  classify m val = m.
Proof.
  destruct (decide (len val - len (line m) = 1 ∧ slice val 0 (-1) = line m))
    as [[Hl Hs] | H1].
  - left. destruct (slice_drop_last_inv _ _ Hl Hs) as [c ->].
    exists c. split; [done | apply classify_append].
  - destruct (decide (len val - len (line m) = -1
                      ∧ slice (line m) 0 (-1) = val)) as [[Hl Hs] | H2].
    + right; left.
      destruct (slice_drop_last_inv (line m) val) as [c Hc]; [lia | done |].
      exists c. split; [done | by eapply classify_backspace].
    + right; right. by apply classify_irregular.
Qed.

Lemma classify_within_limit m val :
  exceeding m val <= 0 -> within_limit m -> within_limit (classify m val).
Proof.
  unfold exceeding, within_limit. intros Hexc [Hlo Hhi].
  destruct (classify_cases m val)
    as [(c & -> & ->) | [(c & Hl & ->) | ->]];
    unfold commitChar, commitBackspace; cbn [line bodyLength]; [| | done].
  - rewrite !len_app in *. change (len [c]) with 1 in *. lia.
  - rewrite Hl, slice_drop_last. rewrite Hl, len_app in Hlo, Hexc.
    change (len [c]) with 1 in *. lia.
Qed.

Lemma parsed_within_limit m val : within_limit m -> within_limit (parsed m val).
Proof.
  intros Hm. unfold parsed. case_decide as Hexc.
  - apply classify_within_limit; [| done].
    rewrite exceeding_after_trim by lia.
    destruct Hm. pose proof (len_nonneg (line m)). lia.
  - apply classify_within_limit; [lia | done].
Qed.

Lemma within_limit_terminates m :
  within_limit m -> bodyLength m <= MAX_BODY_LENGTH + len (line m).
Proof. intros [? ?]. pose proof (len_nonneg (line m)). lia. Qed.

End ParseInputFacts.

(** ** Runs of input events *)

Section Runs.

Implicit Types (m : FormModel) (val : jsstring) (n : nat).

Lemma fresh_within_limit b : within_limit (fresh b).
Proof.
  unfold within_limit, MAX_BODY_LENGTH, fresh, initial_line.
  cbn [line bodyLength]. change (len []) with 0. lia.
Qed.

Lemma inputEvent_within_limit n m val :
  within_limit m ->
  exists m', inputEvent (S (S n)) m val = Some m' ∧ within_limit m'.
Proof.
  intros Hm. unfold inputEvent.
  set (m0 := mkFormModel _ _ _ _ _ _ _).
  assert (within_limit m0) as H0 by done.
  rewrite parseInput_parsed by (by apply within_limit_terminates).
  eexists. split; [done |]. by apply parsed_within_limit.
Qed.

Lemma compose_within_limit n vals : forall m,
  within_limit m ->
  exists ms, compose (S (S n)) m vals = Some ms
             ∧ length ms = length vals ∧ Forall within_limit ms.
Proof.
  induction vals as [| val vals IH]; intros m Hm.
  - exists []. by repeat split.
  - destruct (inputEvent_within_limit n m val Hm) as (m' & Hev & Hm').
    destruct (IH m' Hm') as (ms & Hms & Hlen & Hall).
    exists (m' :: ms). cbn [compose]. rewrite Hev. cbn.
    rewrite Hms. cbn. repeat split; [by rewrite Hlen | by constructor].
Qed.

(** At the limit, one more character at the end of the line is cut off
    again and nothing is committed. *)
Lemma inputEvent_at_limit n m c :
  bodyLength m = MAX_BODY_LENGTH ->
  inputEvent (S (S n)) m (line m ++ [c]) =
  Some (mkFormModel (bodyLength m) (parsedLines m) (body m) (line m) (line m)
          (sent m) (viewlog m)).
Proof.
  intros Hb. unfold inputEvent.
  set (m0 := mkFormModel _ _ _ _ _ _ _).
  assert (exceeding m0 (line m ++ [c]) = 1) as Hexc.
  { unfold exceeding. subst m0. cbn [bodyLength line].
    rewrite len_app. change (len [c]) with 1. lia. }
  rewrite parseInput_exceeds by lia. rewrite Hexc.
  change (- (1)) with (-1). rewrite slice_drop_last.
  rewrite parseInput_fits.
  - f_equal. rewrite classify_irregular.
    + unfold trimInput. subst m0. cbn. by rewrite slice_drop_last.
    + cbn. lia.
    + cbn. lia.
  - unfold exceeding. cbn. lia.
Qed.

(** One more letter typed into a form that has room for it. *)
Lemma inputEvent_append n m c :
  bodyLength m + 1 <= MAX_BODY_LENGTH ->
  inputEvent (S n) m (line m ++ [c]) =
  Some (mkFormModel (bodyLength m + 1) (parsedLines m) (body m)
          (line m ++ [c]) (line m ++ [c])
          (sent m ++ [Send MsgAppend (PNum c)]) (viewlog m)).
Proof.
  intros Hb. unfold inputEvent.
  set (m0 := mkFormModel _ _ _ _ _ _ _).
  rewrite parseInput_fits.
  - by rewrite (classify_append m0 c : classify m0 (line m ++ [c]) = _).
  - unfold exceeding. subst m0. cbn [bodyLength line].
    rewrite len_app. change (len [c]) with 1. lia.
Qed.

Lemma typed_form_within_limit k :
  (k <= 2000)%nat -> within_limit (typed_form k).
Proof.
  intros Hk. unfold within_limit, typed_form, MAX_BODY_LENGTH, len.
  cbn [line bodyLength]. rewrite repeat_length. lia.
Qed.

Lemma inputEvent_typed n k :
  (k < 2000)%nat ->
  inputEvent (S n) (typed_form k) (repeat 97 (S k)) = Some (typed_form (S k)).
Proof.
  intros Hk.
  assert (repeat 97 (S k) = line (typed_form k) ++ [97]) as ->
    by (unfold typed_form; cbn [line repeat]; apply repeat_cons).
  rewrite inputEvent_append
    by (unfold typed_form, MAX_BODY_LENGTH; cbn [bodyLength]; lia).
  f_equal. unfold typed_form. cbn [bodyLength parsedLines body line sent viewlog].
  rewrite <- !repeat_cons. f_equal. lia.
Qed.

Lemma default_last_cons {A} (d x : A) (l : list A) :
  default d (last (x :: l)) = default x (last l).
Proof.
  revert d x. induction l as [| y l IH]; intros d x; [done |].
  change (last (x :: y :: l)) with (last (y :: l)).
  by rewrite !IH.
Qed.

Lemma compose_snoc fuel vals v : forall m,
  compose fuel m (vals ++ [v]) =
  ms ← compose fuel m vals;
  m' ← inputEvent fuel (default m (last ms)) v;
  Some (ms ++ [m']).
Proof.
  induction vals as [| val vals IH]; intros m; cbn [compose app].
  - cbn. by destruct (inputEvent fuel m v).
  - destruct (inputEvent fuel m val) as [m1 |]; [| done]. cbn.
    rewrite IH. destruct (compose fuel m1 vals) as [ms |]; [| done]. cbn.
    rewrite (default_last_cons m m1 ms).
    by destruct (inputEvent fuel (default m1 (last ms)) v).
Qed.

Lemma typing_S k : typing (S k) = typing k ++ [repeat 97 (S k)].
Proof. unfold typing. by rewrite seq_S, fmap_app. Qed.

(** Typing [k] letters into a fresh form, [k] up to the limit, ends in
    [typed_form k]. *)
Lemma compose_typing k :
  (k <= 2000)%nat ->
  exists ms, compose 2 (fresh []) (typing k) = Some ms
             ∧ default (fresh []) (last ms) = typed_form k.
Proof.
  induction k as [| k IH]; intros Hk.
  - by exists [].
  - destruct IH as (ms & Hms & Hlast); [lia |].
    rewrite typing_S, compose_snoc, Hms. cbn [mbind option_bind].
    rewrite Hlast, inputEvent_typed by lia. cbn [mbind option_bind].
    eexists. split; [done |]. by rewrite last_snoc.
Qed.

Lemma compose_typing_last k :
  (S k <= 2000)%nat ->
  (compose 2 (fresh []) (typing (S k)) ≫= last) = Some (typed_form (S k)).
Proof.
  intros Hk. destruct (compose_typing k) as (ms & Hms & Hlast); [lia |].
  rewrite typing_S, compose_snoc, Hms. cbn [mbind option_bind].
  rewrite Hlast, inputEvent_typed by lia. cbn [mbind option_bind].
  by rewrite last_snoc.
Qed.

End Runs.

(** ** The body length limit *)

(** C1: on every run of input events from a fresh form, every event
    returns, and after every event the counter is between 0 and 2000;
    in a state where it is 2000, an input that adds a character to the end
    of the committed line is cut back, and the counter, the committed line
    and the messages sent stay as they were. *)
Theorem body_length_within_bounds (n : nat) (b : jsstring)
    (vals : list jsstring) :
  exists ms,
    compose (S (S n)) (fresh b) vals = Some ms
    ∧ length ms = length vals
    ∧ Forall (λ m,
        0 <= bodyLength m <= 2000
        ∧ (bodyLength m = 2000 ->
           forall c, exists m',
             inputEvent (S (S n)) m (line m ++ [c]) = Some m'
             ∧ bodyLength m' = 2000 ∧ line m' = line m
             ∧ sent m' = sent m ∧ input m' = line m)) ms.
Proof.
  destruct (compose_within_limit n vals (fresh b) (fresh_within_limit b))
    as (ms & Hms & Hlen & Hall).
  exists ms. repeat split; [done | done |].
  eapply Forall_impl; [exact Hall |].
  intros m [Hlo Hhi]. unfold MAX_BODY_LENGTH in *.
  pose proof (len_nonneg (line m)). split; [lia |].
  intros Hb c. eexists. split; [by apply inputEvent_at_limit |]. by cbn.
Qed.

Lemma body_length_within_bounds_witness :
  exists ms,
    compose 2 (fresh []) [[97]; [97; 98]; [97]; [120; 121; 122]] = Some ms
    ∧ length ms = 4%nat
    ∧ Forall (λ m, 0 <= bodyLength m <= 2000) ms.
Proof.
  destruct (body_length_within_bounds 0 [] [[97]; [97; 98]; [97]; [120; 121; 122]])
    as (ms & Hms & Hlen & Hall).
  exists ms. repeat split; [exact Hms | exact Hlen |].
  eapply Forall_impl; [exact Hall |]. intros m [Hm _]. exact Hm.
Defined.

(** C8: with the counter between 0 and 2000, [parseInput] returns, and
    two nested calls are always enough: the call itself and at most one
    call on the shortened value, because the excess computed again after
    shortening is not positive.  A value that fits needs the one call. *)
Theorem parseInput_recursion_bounded (n : nat) (m : FormModel)
    (val : jsstring) :
  0 <= bodyLength m <= 2000 ->
  parseInput 2 m val = Some (parsed m val)
  ∧ parseInput (S (S n)) m val = Some (parsed m val)
  ∧ (0 < exceeding m val ->
     exceeding (trimInput m (exceeding m val))
       (slice val 0 (- exceeding m val)) <= 0)
  ∧ (exceeding m val <= 0 -> parseInput 1 m val = Some (parsed m val)).
Proof.
  intros Hb. pose proof (len_nonneg (line m)).
  assert (bodyLength m <= MAX_BODY_LENGTH + len (line m))
    by (unfold MAX_BODY_LENGTH; lia).
  repeat split.
  - by apply parseInput_parsed.
  - by apply parseInput_parsed.
  - intros Hexc. rewrite exceeding_after_trim by done. lia.
  - intros Hexc. rewrite parseInput_fits by done.
    unfold parsed. case_decide; [lia | done].
Qed.

Lemma parseInput_recursion_bounded_witness :
  let m := mkFormModel 1999 0 [] [104; 105] [] [] [] in
  parseInput 2 m [104; 105; 33; 33; 33] = Some (parsed m [104; 105; 33; 33; 33])
  ∧ line (parsed m [104; 105; 33; 33; 33]) = [104; 105; 33].
Proof.
  intros m. split; [| reflexivity].
  apply (parseInput_recursion_bounded 0 m [104; 105; 33; 33; 33]).
  unfold m. simpl. lia.
Defined.

(** C3: when the excess is positive, [parseInput] first has the view
    drop that many characters from the end of its input and then runs
    again on the value without (as far as it has them) its last that many
    characters; with the counter within the limit the value has them.  At
    counter 1999, adding two characters in one input gives the excess 1,
    commits the first of the two only, and ends at 2000. *)
Theorem overflow_truncates_and_retries :
  (forall (n : nat) (m : FormModel) (val : jsstring),
     0 < exceeding m val ->
     parseInput (S n) m val =
       parseInput n (trimInput m (exceeding m val))
         (slice val 0 (- exceeding m val))
     ∧ input (trimInput m (exceeding m val))
       = slice (input m) 0 (- exceeding m val)
     ∧ (bodyLength m <= 2000 ->
        exists dropped,
          val = slice val 0 (- exceeding m val) ++ dropped
          ∧ len dropped = exceeding m val))
  ∧ (forall (n : nat) (m : FormModel) (x y : codeunit),
       bodyLength m = 1999 ->
       exceeding m (line m ++ [x; y]) = 1
       ∧ exists m',
           inputEvent (S (S n)) m (line m ++ [x; y]) = Some m'
           ∧ line m' = line m ++ [x]
           ∧ bodyLength m' = 2000
           ∧ sent m' = sent m ++ [Send MsgAppend (PNum x)]
           ∧ input m' = line m ++ [x]).
Proof.
  split.
  - intros n m val Hexc. split; [by apply parseInput_exceeds |].
    split; [done |]. intros Hb.
    exists (drop (Z.to_nat (len val - exceeding m val)) val).
    rewrite slice_0_neg by done. split; [by rewrite take_drop |].
    unfold len. rewrite length_drop.
    unfold exceeding, MAX_BODY_LENGTH, len in *. lia.
  - intros n m x y Hb.
    assert (exceeding m (line m ++ [x; y]) = 1) as Hexc.
    { unfold exceeding, MAX_BODY_LENGTH. rewrite len_app.
      change (len [x; y]) with 2. lia. }
    split; [done |]. unfold inputEvent.
    set (m0 := mkFormModel _ _ _ _ _ _ _).
    change (exceeding m (line m ++ [x; y]))
      with (exceeding m0 (line m ++ [x; y])) in Hexc.
    rewrite parseInput_exceeds by lia. rewrite Hexc.
    change (- (1)) with (-1).
    replace (line m ++ [x; y]) with ((line m ++ [x]) ++ [y])
      by (by rewrite <- app_assoc).
    rewrite slice_drop_last, parseInput_fits.
    + rewrite (classify_append (trimInput m0 1) x : classify _ (line m ++ [x]) = _).
      eexists. split; [done |]. subst m0.
      unfold commitChar, trimInput.
      cbn [line bodyLength sent input charCodeAt0].
      replace (line m ++ [x; y]) with ((line m ++ [x]) ++ [y])
        by (by rewrite <- app_assoc).
      rewrite slice_drop_last. repeat split. lia.
    + unfold exceeding, MAX_BODY_LENGTH. cbn. rewrite len_app.
      change (len [x]) with 1. lia.
Qed.

Lemma overflow_truncates_and_retries_witness :
  let m := mkFormModel 1999 0 [] [104; 105] [] [] [] in
  exceeding m (line m ++ [120; 121]) = 1
  ∧ parseInput 2 m (line m ++ [120; 121]) =
      parseInput 1 (trimInput m 1) (line m ++ [120])
  ∧ exists m',
      inputEvent 2 m (line m ++ [120; 121]) = Some m'
      ∧ line m' = line m ++ [120]
      ∧ bodyLength m' = 2000.
Proof.
  intros m.
  destruct overflow_truncates_and_retries as [Hgen Hscn].
  destruct (Hscn 0%nat m 120 121 eq_refl) as (Hexc & m' & Hev & Hl & Hb & _).
  split; [exact Hexc |]. split.
  - destruct (Hgen 1%nat m (line m ++ [120; 121])) as (Hrec & _).
    + vm_compute. reflexivity.
    + etransitivity; [exact Hrec | vm_compute; reflexivity].
  - exists m'. repeat split; [exact Hev | exact Hl | exact Hb].
Defined.

(** ** Appending and removing one character *)

(** C2, as the code has it: when the append does not take the counter
    over 2000, [parseInput] of the committed line plus one character
    commits that character: the committed line becomes the new value, the
    counter goes up by one and an append message with the character's code
    is sent.  When the committed line is [s] plus one character and the
    backspace passes the same overflow test, [parseInput] of [s] commits a
    backspace: the counter goes down by one, the committed line becomes
    [s] and a backspace message is sent.  The backspace after the append
    gives back the committed line and the counter. *)
Theorem append_then_backspace (n : nat) (m m' : FormModel) (s : jsstring)
    (c c' : codeunit) :
  bodyLength m + 1 <= 2000 ->
  line m' = s ++ [c'] ->
  bodyLength m' - 1 <= 2000 ->
  (parseInput (S n) m (line m ++ [c]) = Some (commitChar m [c])
   ∧ line (commitChar m [c]) = line m ++ [c]
   ∧ bodyLength (commitChar m [c]) = bodyLength m + 1
   ∧ sent (commitChar m [c]) = sent m ++ [Send MsgAppend (PNum c)])
  ∧ (parseInput (S n) m' s = Some (commitBackspace m')
     ∧ line (commitBackspace m') = s
     ∧ bodyLength (commitBackspace m') = bodyLength m' - 1
     ∧ sent (commitBackspace m') = sent m' ++ [Send MsgBackspace PNull])
  ∧ (exists m2,
       parseInput (S n) (commitChar m [c]) (line m) = Some m2
       ∧ line m2 = line m ∧ bodyLength m2 = bodyLength m).
Proof.
  intros Hm Hl Hm'. split; [| split].
  - split; [| done]. rewrite parseInput_fits.
    + by rewrite classify_append.
    + unfold exceeding, MAX_BODY_LENGTH. rewrite len_app.
      change (len [c]) with 1. lia.
  - assert (line (commitBackspace m') = s) as Hs
      by (unfold commitBackspace; cbn [line];
          by rewrite Hl, slice_drop_last).
    split; [| done]. rewrite parseInput_fits.
    + by rewrite (classify_backspace m' s c').
    + unfold exceeding, MAX_BODY_LENGTH. rewrite Hl, len_app.
      change (len [c']) with 1. lia.
  - exists (commitBackspace (commitChar m [c])). split; [| split].
    + rewrite parseInput_fits.
      * by rewrite (classify_backspace (commitChar m [c]) (line m) c).
      * unfold exceeding, MAX_BODY_LENGTH, commitChar. cbn [line bodyLength].
        rewrite len_app. change (len [c]) with 1. lia.
    + unfold commitBackspace, commitChar. cbn [line].
      by rewrite slice_drop_last.
    + unfold commitBackspace, commitChar. cbn [bodyLength]. lia.
Qed.

Lemma append_then_backspace_witness :
  let m := mkFormModel 2 0 [] [104; 105] [] [] [] in
  let m' := mkFormModel 3 0 [] [104; 105; 33] [] [] [] in
  parseInput 1 m [104; 105; 33] = Some (commitChar m [33])
  ∧ parseInput 1 m' [104; 105] = Some (commitBackspace m')
  ∧ line (commitBackspace m') = [104; 105].
Proof.
  intros m m'.
  destruct (append_then_backspace 0 m m' [104; 105] 33 33)
    as ((Happ & _) & (Hback & Hline & _) & _).
  - unfold m. simpl. lia.
  - reflexivity.
  - unfold m'. simpl. lia.
  - split; [exact Happ |]. split; [exact Hback | exact Hline].
Defined.

(** C2 as it is written fails at the limit: 2000 letters typed into a
    fresh form give a form with the counter at 2000, and one more
    character at the end of its committed line is not committed, with any
    number of nested calls allowed: the committed line, the counter and
    the messages sent stay as they were. *)
Lemma append_at_limit_is_dropped :
  (compose 2 (fresh []) (typing 2000) ≫= last) = Some full_form
  ∧ bodyLength full_form = 2000
  ∧ inputEvent 2 full_form (line full_form ++ [98]) = Some full_form
  ∧ (forall n : nat,
       parseInput n full_form (line full_form ++ [98])
       <> Some (commitChar full_form [98])).
Proof.
  split; [apply (compose_typing_last 1999); lia |].
  split; [reflexivity |].
  split; [apply (inputEvent_at_limit 0 full_form 98); reflexivity |].
  assert (within_limit full_form) as Hfull
    by (apply (typed_form_within_limit 2000); lia).
  assert (exceeding full_form (line full_form ++ [98]) = 1) as Hexc.
  { unfold exceeding. rewrite len_app.
    change (bodyLength full_form) with MAX_BODY_LENGTH.
    change (len [98]) with 1. lia. }
  intros [| [| n]]; [done | |].
  - rewrite parseInput_exceeds by lia. done.
  - rewrite parseInput_parsed by (by apply within_limit_terminates).
    intros H.
    assert (bodyLength (parsed full_form (line full_form ++ [98]))
            = bodyLength (commitChar full_form [98])) as Hb by congruence.
    pose proof (parsed_within_limit full_form (line full_form ++ [98]) Hfull)
      as [_ Hle].
    rewrite Hb in Hle. unfold commitChar in Hle. cbn [bodyLength] in Hle.
    change (bodyLength full_form) with MAX_BODY_LENGTH in Hle. lia.
Qed.

(** ** Edits that are neither *)

(** C5: when the value does not exceed the limit and is neither the
    committed line plus one character nor the committed line less its last
    character, [parseInput] returns with the whole form as it was:
    nothing is added to the messages sent, and the committed line and the
    counter are unchanged. *)
Theorem irregular_edit_ignored (n : nat) (m : FormModel) (val : jsstring) :
  exceeding m val <= 0 ->
  (len val - len (line m) <> 1 ∧ len val - len (line m) <> -1)
  ∨ (len val - len (line m) = 1 ∧ slice val 0 (-1) <> line m)
  ∨ (len val - len (line m) = -1 ∧ slice (line m) 0 (-1) <> val) ->
  parseInput (S n) m val = Some m.
Proof.
  intros Hexc Hirr.
  rewrite parseInput_fits by done. f_equal.
  apply classify_irregular; intros [Hl Hs]; destruct Hirr as [[? ?] | [[? ?] | [? ?]]];
    first [ lia | done ].
Qed.

Lemma irregular_edit_ignored_witness :
  parseInput 1 (fresh []) [120; 121; 122] = Some (fresh [])
  ∧ parseInput 1 (mkFormModel 2 0 [] [104; 105] [] [] []) [104; 111; 33]
    = Some (mkFormModel 2 0 [] [104; 105] [] [] []).
Proof.
  split.
  - apply (irregular_edit_ignored 0 (fresh []) [120; 121; 122]).
    + vm_compute. discriminate.
    + left. vm_compute. split; discriminate.
  - apply (irregular_edit_ignored 0
             (mkFormModel 2 0 [] [104; 105] [] [] []) [104; 111; 33]).
    + vm_compute. discriminate.
    + right; left. vm_compute. split; [reflexivity | discriminate].
Defined.

(** ** A newline typed into the form *)

(** C10: a line feed typed at the end of the committed line, with room
    for one more character, goes the way of any character: [parseInput]
    commits it with [commitChar], the committed line ends in the line
    feed, the counter goes up by one, and an append message with code 10
    is sent.  The body, the count of parsed lines and the view are not
    touched. *)
Theorem typed_newline_is_appended (n : nat) (m : FormModel) :
  bodyLength m + 1 <= 2000 ->
  parseInput (S n) m (line m ++ [NL]) = Some (commitChar m [NL])
  ∧ line (commitChar m [NL]) = line m ++ [10]
  ∧ bodyLength (commitChar m [NL]) = bodyLength m + 1
  ∧ sent (commitChar m [NL]) = sent m ++ [Send MsgAppend (PNum 10)]
  ∧ parsedLines (commitChar m [NL]) = parsedLines m
  ∧ body (commitChar m [NL]) = body m
  ∧ viewlog (commitChar m [NL]) = viewlog m.
Proof.
  intros Hm. split; [| done]. rewrite parseInput_fits.
  - by rewrite classify_append.
  - unfold exceeding, MAX_BODY_LENGTH. rewrite len_app.
    change (len [NL]) with 1. lia.
Qed.

Lemma typed_newline_is_appended_witness :
  parseInput 1 (mkFormModel 2 0 [104; 105] [104; 105] [] [] []) [104; 105; 10]
  = Some (mkFormModel 3 0 [104; 105] [104; 105; 10] []
            [Send MsgAppend (PNum 10)] []).
Proof.
  apply (typed_newline_is_appended 0
           (mkFormModel 2 0 [104; 105] [104; 105] [] [] [])).
  simpl. lia.
Defined.

(** ** The last line of the body *)

Section LastBodyLine.

Implicit Types s p l : jsstring.

Lemma split_nl_nonempty s : split_nl s <> [].
Proof.
  destruct s as [| c r]; [done |]. simpl.
  case_decide; [done |]. by destruct (split_nl r).
Qed.

Lemma split_nl_no_nl l : NL ∉ l -> split_nl l = [l].
Proof.
  induction l as [| c r IH]; intros Hnl; [done |].
  apply not_elem_of_cons in Hnl as [Hc Hr]. simpl.
  case_decide; [congruence |]. by rewrite IH.
Qed.

Lemma split_nl_app_nl p l :
  NL ∉ l -> split_nl (p ++ NL :: l) = split_nl p ++ [l].
Proof.
  intros Hnl. induction p as [| c p IH]; cbn [split_nl app].
  - case_decide; [| done]. by rewrite split_nl_no_nl.
  - rewrite IH. case_decide; [done |].
    pose proof (split_nl_nonempty p). by destruct (split_nl p).
Qed.

(** A string has no line feed, or it has a last one. *)
Lemma last_nl_cases s :
  NL ∉ s ∨ exists p l, s = p ++ NL :: l ∧ NL ∉ l.
Proof.
  induction s as [| c r IH]; [left; apply not_elem_of_nil |].
  destruct IH as [Hr | (p & l & -> & Hl)].
  - destruct (decide (c = NL)) as [-> | Hc].
    + right. by exists [], r.
    + left. by apply not_elem_of_cons.
  - right. by exists (c :: p), l.
Qed.

(** The last element of an array that ends in [l]. *)
Lemma last_index_app {A} (q : list A) (x : A) :
  let lines := q ++ [x] in
  let last := Z.of_nat (length lines) - 1 in
  (if decide (last < 0) then None else lines !! Z.to_nat last) = Some x.
Proof.
  cbn zeta. rewrite length_app. cbn [length].
  case_decide; [lia |].
  replace (Z.to_nat (Z.of_nat (length q + 1) - 1)) with (length q) by lia.
  by rewrite list_lookup_middle.
Qed.

Lemma lastBodyLine_no_nl m : NL ∉ body m -> lastBodyLine m = Some (body m).
Proof.
  intros Hnl. unfold lastBodyLine. rewrite split_nl_no_nl by done.
  apply (last_index_app []).
Qed.

Lemma lastBodyLine_after_nl m p l :
  body m = p ++ NL :: l -> NL ∉ l -> lastBodyLine m = Some l.
Proof.
  intros Hb Hnl. unfold lastBodyLine. rewrite Hb, split_nl_app_nl by done.
  apply last_index_app.
Qed.

(** What follows the last line feed is fixed by the string. *)
Lemma after_last_nl_unique p l p' l' :
  p ++ NL :: l = p' ++ NL :: l' -> NL ∉ l -> NL ∉ l' -> l = l'.
Proof.
  revert p'. induction p as [| c p IH]; intros [| c' p'] Heq Hl Hl'; simpl in *.
  - congruence.
  - injection Heq as <- ->. exfalso. apply Hl. set_solver.
  - injection Heq as -> <-. exfalso. apply Hl'. set_solver.
  - injection Heq as -> Heq. by eapply IH.
Qed.

(** [lastBodyLine] returns what follows the last line feed of the body. *)
Lemma lastBodyLine_after_last_nl (m : FormModel) :
  exists l,
    lastBodyLine m = Some l
    ∧ (NL ∉ l)
    ∧ (body m = l ∨ exists p, body m = p ++ NL :: l).
Proof.
  destruct (last_nl_cases (body m)) as [Hnl | (p & l & Hb & Hl)].
  - exists (body m). split; [by apply lastBodyLine_no_nl |].
    split; [done | by left].
  - exists l. split; [by eapply lastBodyLine_after_nl |].
    split; [done | right; by exists p].
Qed.

End LastBodyLine.

(** C9: [lastBodyLine] returns on every body: the split is never empty
    and its last piece is the part of the body after the last line feed,
    which is all of the body when there is no line feed, and empty when
    the body is empty or ends in a line feed. *)
Theorem lastBodyLine_is_total (m : FormModel) :
  split_nl (body m) <> []
  ∧ exists l,
      lastBodyLine m = Some l
      ∧ (NL ∉ l)
      ∧ (body m = l ∨ exists p, body m = p ++ NL :: l)
      ∧ (NL ∉ body m -> l = body m)
      ∧ (body m = [] -> l = [])
      ∧ (forall p, body m = p ++ [NL] -> l = []).
Proof.
  split; [apply split_nl_nonempty |].
  destruct (lastBodyLine_after_last_nl m) as (l & Hlast & Hl & Hb).
  exists l. split; [done |]. split; [done |]. split; [done |].
  destruct Hb as [Hb | (p & Hb)].
  - split; [done |]. split; [by intros <- |].
    intros p Hp. exfalso. apply Hl. rewrite <- Hb, Hp. set_solver.
  - split; [| split].
    + intros Hnl. exfalso. apply Hnl. rewrite Hb. set_solver.
    + intros He. rewrite He in Hb. by destruct p.
    + intros p' Hb'. rewrite Hb' in Hb. symmetry.
      apply (after_last_nl_unique p' [] p l); [done | set_solver | done].
Qed.

(** ** The count of parsed lines *)

Section ParsedLines.

Context {SpliceResponse : Type}.
Variable spliceLine : jsstring -> SpliceResponse -> jsstring.

Implicit Types (m : FormModel) (op : operation SpliceResponse).
Implicit Types ops : list (operation SpliceResponse).

Lemma classify_parsedLines m val : parsedLines (classify m val) = parsedLines m.
Proof.
  by destruct (classify_cases m val) as [(c & _ & ->) | [(c & _ & ->) | ->]].
Qed.

Lemma parseInput_parsedLines fuel : forall m val m',
  parseInput fuel m val = Some m' -> parsedLines m' = parsedLines m.
Proof.
  induction fuel as [| fuel IH]; intros m val m' H; [done |].
  simpl in H. case_decide.
  - by rewrite (IH _ _ _ H).
  - injection H as <-. apply classify_parsedLines.
Qed.

Lemma append_parsedLines m code :
  parsedLines (append m code) =
  parsedLines m + (if decide (fromCharCode code = [NL]) then 1 else 0).
Proof. unfold append. case_decide; cbn [parsedLines terminateLine]; lia. Qed.

Lemma splice_parsedLines m msg :
  parsedLines (splice spliceLine m msg) = parsedLines m.
Proof. unfold splice. by destruct (lastBodyLine m). Qed.

(** One operation on a form within the limit: it returns, the form stays
    within the limit, and the count moves by one for a line feed appended
    and not at all otherwise. *)
Lemma perform_within_limit n m op :
  within_limit m ->
  exists m', perform spliceLine (S (S n)) m op = Some m'
             ∧ within_limit m'
             ∧ parsedLines m' =
               parsedLines m + (if terminates_line op then 1 else 0).
Proof.
  intros Hm. destruct op as [code | | msg | val]; cbn [perform terminates_line].
  - eexists. split; [done |]. split.
    + unfold append. by case_decide.
    + rewrite append_parsedLines.
      by destruct (decide (fromCharCode code = [NL]));
        [rewrite bool_decide_eq_true_2 | rewrite bool_decide_eq_false_2].
  - eexists. split; [done |]. split; [done |]. cbn. lia.
  - eexists. split; [done |]. split.
    + unfold splice. by destruct (lastBodyLine m).
    + rewrite splice_parsedLines. lia.
  - rewrite parseInput_parsed by (by apply within_limit_terminates).
    eexists. split; [done |]. split; [by apply parsed_within_limit |].
    rewrite (parseInput_parsedLines (S (S n)) m val (parsed m val)); [lia |].
    apply parseInput_parsed. by apply within_limit_terminates.
Qed.

Lemma terminated_lines_cons op ops :
  terminated_lines (op :: ops) =
  (if terminates_line op then 1 else 0) + terminated_lines ops.
Proof.
  unfold terminated_lines. rewrite filter_cons.
  destruct (terminates_line op); case_decide; try done; cbn [length]; lia.
Qed.

Lemma terminated_lines_app ops1 ops2 :
  terminated_lines (ops1 ++ ops2) =
  terminated_lines ops1 + terminated_lines ops2.
Proof.
  unfold terminated_lines. rewrite filter_app, length_app. lia.
Qed.

Lemma run_within_limit n ops : forall m,
  within_limit m ->
  exists m', run spliceLine (S (S n)) m ops = Some m'
             ∧ within_limit m'
             ∧ parsedLines m' = parsedLines m + terminated_lines ops.
Proof.
  induction ops as [| op ops IH]; intros m Hm.
  - exists m. split; [done |]. split; [done |].
    unfold terminated_lines. cbn. lia.
  - destruct (perform_within_limit n m op Hm) as (m1 & Hop & Hm1 & Hp1).
    destruct (IH m1 Hm1) as (m' & Hrun & Hm' & Hp').
    exists m'. cbn [run]. rewrite Hop. cbn. split; [done |].
    split; [done |]. rewrite terminated_lines_cons. lia.
Qed.

Lemma run_app fuel ops1 ops2 : forall m,
  run spliceLine fuel m (ops1 ++ ops2) =
  run spliceLine fuel m ops1 ≫= λ m1, run spliceLine fuel m1 ops2.
Proof.
  induction ops1 as [| op ops1 IH]; intros m; [done |].
  cbn [run app]. destruct (perform spliceLine fuel m op); cbn; [apply IH | done].
Qed.

End ParsedLines.

(** C6: the count of parsed lines is 0 in a fresh form; an append adds
    one to it when the character is the line feed and leaves it alone
    otherwise; backspace, splice, commitChar, commitBackspace and
    parseInput leave it alone.  So every run of operations on a fresh
    form returns with the count equal to the number of line feeds
    appended, and one more operation moves it by one for a line feed
    appended and not at all otherwise. *)
Theorem parsed_lines_count_newlines {SpliceResponse : Type}
    (spliceLine : jsstring -> SpliceResponse -> jsstring)
    (n : nat) (b : jsstring) (ops : list (operation SpliceResponse)) :
  parsedLines (fresh b) = 0
  ∧ (forall m code,
       parsedLines (append m code) =
       parsedLines m + (if decide (fromCharCode code = [NL]) then 1 else 0))
  ∧ (forall m, parsedLines (backspace m) = parsedLines m)
  ∧ (forall m msg, parsedLines (splice spliceLine m msg) = parsedLines m)
  ∧ (forall m char, parsedLines (commitChar m char) = parsedLines m)
  ∧ (forall m, parsedLines (commitBackspace m) = parsedLines m)
  ∧ (forall fuel m val m',
       parseInput fuel m val = Some m' -> parsedLines m' = parsedLines m)
  ∧ (exists m',
       run spliceLine (S (S n)) (fresh b) ops = Some m'
       ∧ parsedLines m' = terminated_lines ops
       ∧ forall op, exists m'',
           run spliceLine (S (S n)) (fresh b) (ops ++ [op]) = Some m''
           ∧ parsedLines m'' =
             parsedLines m' + (if terminates_line op then 1 else 0)).
Proof.
  split; [done |]. split; [apply append_parsedLines |].
  split; [done |]. split; [apply splice_parsedLines |].
  split; [done |]. split; [done |].
  split; [apply parseInput_parsedLines |].
  destruct (run_within_limit spliceLine n ops (fresh b) (fresh_within_limit b))
    as (m' & Hrun & Hm' & Hp).
  exists m'. split; [done |]. split; [cbn in Hp; lia |].
  intros op.
  destruct (perform_within_limit spliceLine n m' op Hm') as (m'' & Hop & _ & Hp'').
  exists m''. rewrite run_app, Hrun. cbn. rewrite Hop. by cbn.
Qed.

(** ** From a displayed post to a form *)

Module LifecycleFacts.

Import Lifecycle.

(** What [extractAttrs] holds under a key. *)
Lemma extractAttrs_lookup (src : gmap string value) (key : string) :
  extractAttrs src !! key =
  match src !! key with
  | Some v => if is_function v then None else Some v
  | None => None
  end.
Proof.
  unfold extractAttrs.
  apply (map_fold_weak_ind
           (λ attrs src,
              attrs !! key =
              match src !! key with
              | Some v => if is_function v then None else Some v
              | None => None
              end)).
  - by rewrite !lookup_empty.
  - intros i x m r Hi IH. destruct (decide (i = key)) as [-> | Hne].
    + rewrite lookup_insert_eq. rewrite Hi in IH.
      destruct (is_function x); [done |]. by rewrite lookup_insert_eq.
    + rewrite lookup_insert_ne by done. rewrite <- IH.
      destruct (is_function x); [done |]. by rewrite lookup_insert_ne.
Qed.

Lemma extractAttrs_keeps (src : gmap string value) key v :
  src !! key = Some v -> is_function v = false ->
  extractAttrs src !! key = Some v.
Proof. intros H Hf. by rewrite extractAttrs_lookup, H, Hf. Qed.

Lemma extractAttrs_only (src : gmap string value) key v :
  extractAttrs src !! key = Some v ->
  src !! key = Some v ∧ is_function v = false.
Proof.
  rewrite extractAttrs_lookup. destruct (src !! key) as [x |]; [| done].
  destruct (is_function x) eqn:Hf; [done |]. by intros [= ->].
Qed.

Lemma model_id_extractAttrs (o : gmap string value) id :
  model_id o = Some id -> model_id (extractAttrs o) = Some id.
Proof.
  unfold model_id. destruct (o !! "id"%string) as [[] |] eqn:H; try done.
  intros [= ->]. by rewrite (extractAttrs_keeps o _ (VNum id)).
Qed.

End LifecycleFacts.

Import Lifecycle LifecycleFacts.

(** C7: the constructor, run on the id of a registered model that has a
    view, goes through nine states.  The model it makes is a new one that
    holds every attribute of the old model that is not a function, and
    nothing else.  Up to its registration a lookup of the id gives the old
    model, from the registration on it gives the new one: there is always
    a model under the id, and never the old one once the new one is in.
    In the last state the root element of the new view stands in the page
    wherever the root element of the old view stood. *)
Theorem display_to_composing (w : World) (id : Z) (oldModel oldView : loc)
    (old : gmap string value) (v : View) :
  posts w !! id = Some oldModel ->
  models w !! oldModel = Some old ->
  model_id old = Some id ->
  model_view old = Some oldView ->
  views w !! oldView = Some v ->
  let this := length (models w) in
  let form := length (views w) in
  exists w1 w2 w3 w4 w5 w6 w7 w8 w9,
    OPFormModel_constructor w id = Some [w1; w2; w3; w4; w5; w6; w7; w8; w9]
    ∧ this <> oldModel
    ∧ models w2 !! this = Some (extractAttrs old)
    ∧ (forall key x,
         old !! key = Some x -> is_function x = false ->
         extractAttrs old !! key = Some x)
    ∧ (forall key x,
         extractAttrs old !! key = Some x ->
         old !! key = Some x ∧ is_function x = false)
    ∧ Forall (λ w', posts w' !! id = Some oldModel) [w; w1; w2]
    ∧ Forall (λ w', posts w' !! id = Some this) [w3; w4; w5; w6; w7; w8; w9]
    ∧ Forall (λ w', document w' = document w) [w1; w2; w3; w4; w5; w6]
    ∧ document w9 =
        (λ e, if decide (e = RootOf oldView) then RootOf form else e)
          <$> document w
    ∧ (RootOf oldView ∉ document w9)
    ∧ postForm w9 = Some form
    ∧ postModel w9 = Some this.
Proof.
  intros Hpost Hold Hid Hview Hv this form.
  assert (oldModel < this)%nat as Hlt by (by eapply lookup_lt_Some).
  assert (oldView < form)%nat as Hvlt by (by eapply lookup_lt_Some).
  eassert (OPFormModel_constructor w id = Some _) as Hc.
  { unfold OPFormModel_constructor.
    rewrite Hpost. cbn. rewrite Hold. cbn. rewrite Hview. cbn. rewrite Hv. cbn.
    unfold addOP. cbn. fold this.
    rewrite (list_lookup_middle (models w) [] (extractAttrs old) this) by done.
    cbn. rewrite (model_id_extractAttrs old id Hid). cbn. reflexivity. }
  do 9 eexists. split; [exact Hc |].
  split; [lia |].
  split; [by apply (list_lookup_middle (models w) [] (extractAttrs old) this) |].
  split; [apply extractAttrs_keeps |].
  split; [apply extractAttrs_only |].
  split; [by repeat constructor |].
  split; [repeat constructor; cbn; apply lookup_insert_eq |].
  split; [by repeat constructor |].
  split; [cbn; by rewrite length_insert |].
  split; [| cbn; by rewrite length_insert].
  cbn. rewrite length_insert. fold form.
  intros Hin. apply list_elem_of_fmap in Hin as (e & He & _).
  case_decide; [injection He; lia | congruence].
Qed.

Lemma display_to_composing_witness :
  let old : gmap string value :=
    {[ "id"%string := VNum 7; "view"%string := VRef 0%nat;
       "body"%string := VStr [104; 105];
       "remove"%string := VFun "remove" ]} in
  let w := mkWorld [old] [mkView true] {[ 7 := 0%nat ]} [RootOf 0%nat]
             None None in
  exists trace w9,
    OPFormModel_constructor w 7 = Some trace
    ∧ last trace = Some w9
    ∧ posts w9 !! 7 = Some 1%nat
    ∧ document w9 = [RootOf 1%nat].
Proof.
  intros old w.
  destruct (display_to_composing w 7 0%nat 0%nat old (mkView true))
    as (w1 & w2 & w3 & w4 & w5 & w6 & w7 & w8 & w9 & Hc & _ & _ & _ & _ & _
        & Hreg & _ & Hdoc & _).
  - reflexivity.
  - reflexivity.
  - vm_compute. reflexivity.
  - vm_compute. reflexivity.
  - reflexivity.
  - exists [w1; w2; w3; w4; w5; w6; w7; w8; w9], w9.
    split; [exact Hc |]. split; [reflexivity |]. split.
    + apply Forall_cons in Hreg as [_ Hreg].
      do 5 apply Forall_cons in Hreg as [_ Hreg].
      apply Forall_cons in Hreg as [Hreg _]. exact Hreg.
    + exact Hdoc.
Defined.

(** ** The scenarios of the specification, run *)

(** Typing a, b, c into a fresh form sends three appends. *)
Example scenario_typing_abc :
  (compose 2 (fresh []) [[97]; [97; 98]; [97; 98; 99]] ≫= last) =
  Some (mkFormModel 3 0 [] [97; 98; 99] [97; 98; 99]
          [Send MsgAppend (PNum 97); Send MsgAppend (PNum 98);
           Send MsgAppend (PNum 99)] []).
Proof. reflexivity. Qed.

(** Removing the c again sends a backspace. *)
Example scenario_typing_abc_backspace :
  (compose 2 (fresh []) [[97]; [97; 98]; [97; 98; 99]; [97; 98]] ≫= last) =
  Some (mkFormModel 2 0 [] [97; 98] [97; 98]
          [Send MsgAppend (PNum 97); Send MsgAppend (PNum 98);
           Send MsgAppend (PNum 99); Send MsgBackspace PNull] []).
Proof. reflexivity. Qed.

(** Pasting xyz into a fresh form sends nothing and commits nothing. *)
Example scenario_paste :
  inputEvent 2 (fresh []) [120; 121; 122] =
  Some (mkFormModel 0 0 [] [] [120; 121; 122] [] []).
Proof. reflexivity. Qed.

(** With the counter further above the limit than the committed line is
    long, no number of nested calls is enough. *)
Example scenario_no_return (n : nat) :
  parseInput n (mkFormModel 2003 0 [] [104; 105] [] [] []) [104; 105; 33]
  = None.
Proof. apply parseInput_diverges. vm_compute. reflexivity. Qed.

(** ** One input event, case by case *)

Section InputEventFacts.

Implicit Types (m : FormModel) (val : jsstring) (n : nat).

(** The two tests of [parseInput] on a value that is in [$input] and
    fits: what is committed, what is sent, and what stays. *)
Lemma classify_step m val :
  input m = val -> exceeding m val <= 0 -> within_limit m ->
  within_limit (classify m val)
  ∧ parsedLines (classify m val) = parsedLines m
  ∧ body (classify m val) = body m
  ∧ viewlog (classify m val) = viewlog m
  ∧ input (classify m val) = val
  ∧ ((exists c, val = line m ++ [c]
        ∧ line (classify m val) = line m ++ [c]
        ∧ bodyLength (classify m val) = bodyLength m + 1
        ∧ sent (classify m val) = sent m ++ [Send MsgAppend (PNum c)])
     ∨ (exists c, line m = val ++ [c]
          ∧ line (classify m val) = val
          ∧ bodyLength (classify m val) = bodyLength m - 1
          ∧ sent (classify m val) = sent m ++ [Send MsgBackspace PNull])
     ∨ classify m val = m).
Proof.
  intros Hin Hexc Hm.
  split; [by apply classify_within_limit |].
  destruct (classify_cases m val) as [(c & Hv & Hc) | [(c & Hl & Hc) | Hc]];
    rewrite Hc.
  - do 4 (split; [done |]). left. exists c. by repeat split.
  - do 4 (split; [done |]). right; left. exists c.
    unfold commitBackspace. cbn [line bodyLength sent].
    rewrite Hl, slice_drop_last. by repeat split.
  - do 4 (split; [done |]). by right; right.
Qed.

(** One input event on a form within the limit. *)
Lemma inputEvent_step n m val :
  within_limit m ->
  exists m',
    inputEvent (S (S n)) m val = Some m'
    ∧ within_limit m'
    ∧ parsedLines m' = parsedLines m
    ∧ body m' = body m
    ∧ viewlog m' = viewlog m
    ∧ (exists dropped, val = input m' ++ dropped)
    ∧ (exceeding m val <= 0 -> input m' = val)
    ∧ ((exists c, input m' = line m ++ [c]
          ∧ line m' = line m ++ [c]
          ∧ bodyLength m' = bodyLength m + 1
          ∧ sent m' = sent m ++ [Send MsgAppend (PNum c)])
       ∨ (exists c, line m = line m' ++ [c]
            ∧ input m' = line m'
            ∧ bodyLength m' = bodyLength m - 1
            ∧ sent m' = sent m ++ [Send MsgBackspace PNull])
       ∨ (line m' = line m
          ∧ bodyLength m' = bodyLength m
          ∧ sent m' = sent m
          ∧ exceeding m (input m') <= 0
          ∧ classify m' (input m') = m')).
Proof.
  intros Hm. unfold inputEvent.
  set (m0 := mkFormModel _ _ _ _ _ _ _).
  assert (within_limit m0) as Hm0 by done.
  rewrite parseInput_parsed by (by apply within_limit_terminates).
  eexists. split; [done |]. unfold parsed.
  change (exceeding m0 val) with (exceeding m val).
  destruct (decide (exceeding m val > 0)) as [Hexc | Hexc].
  - set (mt := trimInput m0 (exceeding m val)).
    set (vt := slice val 0 (- exceeding m val)).
    assert (exceeding mt vt <= 0) as Hfit.
    { subst mt vt. change (exceeding m val) with (exceeding m0 val).
      rewrite exceeding_after_trim by (change (exceeding m0 val) with (exceeding m val); lia).
      destruct Hm0. pose proof (len_nonneg (line m0)). lia. }
    destruct (classify_step mt vt) as (Hw & Hp & Hb & Hv & Hi & Hcases);
      [done | done | done |].
    split; [done |]. split; [done |]. split; [done |]. split; [done |].
    split.
    { rewrite Hi. subst vt. rewrite slice_0_neg by lia.
      eexists. by rewrite take_drop. }
    split; [lia |].
    destruct Hcases as [(c & Hvt & Hl & Hbl & Hs) | [(c & Hl' & Hl & Hbl & Hs) | Hc]].
    + left. exists c. rewrite Hi. by repeat split.
    + right; left. exists c. rewrite Hi, Hl. by repeat split.
    + right; right. rewrite Hc. by repeat split.
  - destruct (classify_step m0 val) as (Hw & Hp & Hb & Hv & Hi & Hcases);
      [done | change (exceeding m0 val) with (exceeding m val); lia | done |].
    split; [done |]. split; [done |]. split; [done |]. split; [done |].
    split; [exists []; by rewrite Hi, app_nil_r |].
    split; [done |].
    destruct Hcases as [(c & Hvt & Hl & Hbl & Hs) | [(c & Hl' & Hl & Hbl & Hs) | Hc]].
    + left. exists c. rewrite Hi. by repeat split.
    + right; left. exists c. rewrite Hi, Hl. by repeat split.
    + right; right. rewrite Hc. by repeat split.
Qed.

(** A property of forms that input events keep holds after every event
    of a run. *)
Lemma compose_invariant (P : FormModel -> Prop) (Q : jsstring -> Prop) n :
  (forall m val m',
     Q val -> within_limit m -> P m ->
     inputEvent (S (S n)) m val = Some m' -> P m') ->
  forall vals m,
    Forall Q vals -> within_limit m -> P m ->
    exists ms, compose (S (S n)) m vals = Some ms
               ∧ length ms = length vals ∧ Forall P ms.
Proof.
  intros Hstep vals. induction vals as [| val vals IH]; intros m HQ Hm HP.
  - exists []. split; [done |]. split; [done | constructor].
  - apply Forall_cons in HQ as [Hval HQ].
    destruct (inputEvent_within_limit n m val Hm) as (m' & Hev & Hm').
    assert (P m') as HP' by (by apply (Hstep m val m')).
    destruct (IH m' HQ Hm' HP') as (ms & Hms & Hlen & Hall).
    exists (m' :: ms). cbn [compose]. rewrite Hev. cbn [mbind option_bind].
    rewrite Hms. cbn [mbind option_bind].
    split; [done |]. split; [cbn; by rewrite Hlen | by constructor].
Qed.

End InputEventFacts.

(** ** The form and its mirror *)

Section Mirror.

Implicit Types (m mirror : FormModel) (val : jsstring) (n : nat).

Lemma body_append m code : body (append m code) = body m ++ fromCharCode code.
Proof. unfold append. by case_decide. Qed.

Lemma fromCharCode_code_unit c : code_unit c -> fromCharCode c = [c].
Proof. intros Hc. unfold fromCharCode. by rewrite Z.mod_small. Qed.

Lemma replay_snoc msgs msg m :
  replay (msgs ++ [msg]) m = receive (replay msgs m) msg.
Proof. unfold replay. by rewrite foldl_app. Qed.

Lemma count_sent_snoc t msgs msg :
  count_sent t (msgs ++ [msg]) =
  count_sent t msgs + (if decide (msg_type msg = t) then 1 else 0).
Proof.
  unfold count_sent. rewrite filter_app, length_app, filter_cons, filter_nil.
  case_decide; cbn [length]; lia.
Qed.

Lemma well_formed_prefix s t : well_formed (s ++ t) -> well_formed s.
Proof. unfold well_formed. by intros [? ?]%Forall_app. Qed.

End Mirror.

(** X1: what the form sends is enough for a mirror to follow it.  On
    every run of input events with well-formed values from a fresh form,
    after every event, a mirror that has received the messages sent so
    far, in order, through [append] and [backspace], has in its body what
    it had before followed by the committed line of the form. *)
Theorem mirror_follows_committed_line (n : nat) (b : jsstring)
    (vals : list jsstring) (mirror : FormModel) :
  Forall well_formed vals ->
  exists ms,
    compose (S (S n)) (fresh b) vals = Some ms
    ∧ length ms = length vals
    ∧ Forall (λ m, body (replay (sent m) mirror) = body mirror ++ line m) ms.
Proof.
  intros Hvals.
  destruct (compose_invariant
              (λ m, well_formed (line m)
                    ∧ forall mirror,
                        body (replay (sent m) mirror) = body mirror ++ line m)
              well_formed n) with (vals := vals) (m := fresh b)
    as (ms & Hms & Hlen & Hall).
  - intros m val m' Hval Hm [Hwf Hrep] Hev.
    destruct (inputEvent_step n m val Hm)
      as (m1 & Hev1 & _ & _ & _ & _ & (dropped & Hdrop) & _ & Hcases).
    rewrite Hev in Hev1. injection Hev1 as <-.
    destruct Hcases as [(c & Hin & Hl & _ & Hs)
                       | [(c & Hl & _ & _ & Hs) | (Hl & _ & Hs & _)]].
    + assert (code_unit c) as Hc.
      { rewrite Hdrop, Hin in Hval. unfold well_formed in Hval.
        rewrite !Forall_app in Hval. destruct Hval as [[_ Hc] _].
        exact (Forall_inv Hc). }
      rewrite Hl, Hs. split.
      * apply Forall_app. split; [done | by apply Forall_singleton].
      * intros mir. rewrite replay_snoc. unfold receive. cbn [msg_type msg_data payload_code].
        rewrite body_append, Hrep, fromCharCode_code_unit by done.
        by rewrite <- app_assoc.
    + rewrite Hl in Hwf, Hrep. rewrite Hs. split.
      * by eapply well_formed_prefix.
      * intros mir. rewrite replay_snoc. unfold receive, backspace.
        cbn [msg_type body]. rewrite Hrep, app_assoc. apply slice_drop_last.
    + by rewrite Hl, Hs.
  - done.
  - apply fresh_within_limit.
  - split; [constructor |]. intros mir. cbn. by rewrite app_nil_r.
  - exists ms. split; [done |]. split; [done |].
    eapply Forall_impl; [exact Hall |]. intros m [_ Hm]. apply Hm.
Qed.

Lemma mirror_follows_committed_line_witness :
  exists ms,
    compose 2 (fresh []) [[104]; [104; 105]; [104]; [104; 10]] = Some ms
    ∧ Forall (λ m, body (replay (sent m) (fresh [62])) = [62] ++ line m) ms.
Proof.
  destruct (mirror_follows_committed_line 0 []
              [[104]; [104; 105]; [104]; [104; 10]] (fresh [62]))
    as (ms & Hms & _ & Hall).
  - repeat constructor; unfold code_unit; lia.
  - exists ms. split; [exact Hms | exact Hall].
Defined.

(** X2: on every run of input events from a fresh form, after every
    event, the counter is the length of the committed line and the number
    of append messages sent less the number of backspace messages sent,
    every append message carries a number (never NaN) and every backspace
    message carries null. *)
Theorem counter_is_line_length (n : nat) (b : jsstring)
    (vals : list jsstring) :
  exists ms,
    compose (S (S n)) (fresh b) vals = Some ms
    ∧ length ms = length vals
    ∧ Forall (λ m,
        bodyLength m = len (line m)
        ∧ bodyLength m =
          count_sent MsgAppend (sent m) - count_sent MsgBackspace (sent m)
        ∧ Forall (λ msg,
            match msg_type msg with
            | MsgAppend => exists c, msg_data msg = PNum c
            | MsgBackspace => msg_data msg = PNull
            end) (sent m)) ms.
Proof.
  destruct (compose_invariant
              (λ m,
                 bodyLength m = len (line m)
                 ∧ bodyLength m =
                   count_sent MsgAppend (sent m)
                   - count_sent MsgBackspace (sent m)
                 ∧ Forall (λ msg,
                     match msg_type msg with
                     | MsgAppend => exists c, msg_data msg = PNum c
                     | MsgBackspace => msg_data msg = PNull
                     end) (sent m))
              (λ _, True) n) with (vals := vals) (m := fresh b)
    as (ms & Hms & Hlen & Hall).
  - intros m val m' _ Hm (Hb & Hc & Hf) Hev.
    destruct (inputEvent_step n m val Hm)
      as (m1 & Hev1 & _ & _ & _ & _ & _ & _ & Hcases).
    rewrite Hev in Hev1. injection Hev1 as <-.
    destruct Hcases as [(c & _ & Hl & Hbl & Hs)
                       | [(c & Hl & _ & Hbl & Hs) | (Hl & Hbl & Hs & _)]].
    + rewrite Hl, Hbl, Hs, len_app, !count_sent_snoc.
      cbn [msg_type]. change (len [c]) with 1.
      split; [lia |]. split.
      * repeat case_decide; try done; lia.
      * apply Forall_app. split; [done |].
        apply Forall_singleton. by exists c.
    + rewrite Hl, len_app in Hb. change (len [c]) with 1 in Hb.
      rewrite Hbl, Hs, !count_sent_snoc. cbn [msg_type].
      split; [lia |]. split.
      * repeat case_decide; try done; lia.
      * apply Forall_app. split; [done |]. by apply Forall_singleton.
    + by rewrite Hl, Hbl, Hs.
  - by apply Forall_true.
  - apply fresh_within_limit.
  - split; [done |]. split; [done | constructor].
  - by exists ms.
Qed.

(** ** What one input event can do *)

(** X3: an input event on a form within the limit returns and does one
    of three things: it adds one character to the end of the committed
    line, counts it and sends one append message with its code; or it
    takes the last character off the committed line, counts it off and
    sends one backspace message; or it leaves the committed line, the
    counter and the messages sent alone.  It never touches the body, the
    count of parsed lines or the view's parsed lines. *)
Theorem input_event_commits_at_most_one (n : nat) (m : FormModel)
    (val : jsstring) :
  within_limit m ->
  exists m',
    inputEvent (S (S n)) m val = Some m'
    ∧ body m' = body m
    ∧ parsedLines m' = parsedLines m
    ∧ viewlog m' = viewlog m
    ∧ ((exists c, line m' = line m ++ [c]
          ∧ bodyLength m' = bodyLength m + 1
          ∧ sent m' = sent m ++ [Send MsgAppend (PNum c)])
       ∨ (exists c, line m = line m' ++ [c]
            ∧ bodyLength m' = bodyLength m - 1
            ∧ sent m' = sent m ++ [Send MsgBackspace PNull])
       ∨ (line m' = line m
          ∧ bodyLength m' = bodyLength m
          ∧ sent m' = sent m)).
Proof.
  intros Hm.
  destruct (inputEvent_step n m val Hm)
    as (m' & Hev & _ & Hp & Hb & Hv & _ & _ & Hcases).
  exists m'. do 4 (split; [done |]).
  destruct Hcases as [(c & _ & Hl & Hbl & Hs)
                     | [(c & Hl & _ & Hbl & Hs) | (Hl & Hbl & Hs & _)]].
  - left. by exists c.
  - right; left. by exists c.
  - by right; right.
Qed.

Lemma input_event_commits_at_most_one_witness :
  exists m',
    inputEvent 2 (mkFormModel 1999 0 [] [104; 105] [] [] [])
      [104; 105; 33; 33; 33] = Some m'
    ∧ body m' = [] ∧ parsedLines m' = 0.
Proof.
  destruct (input_event_commits_at_most_one 0
              (mkFormModel 1999 0 [] [104; 105] [] [] [])
              [104; 105; 33; 33; 33])
    as (m' & Hev & Hb & Hp & _).
  - split; vm_compute; discriminate.
  - exists m'. split; [exact Hev |]. split; [exact Hb | exact Hp].
Defined.

(** X4: an input event that fires again with what the first one left in
    [$input] changes nothing and sends nothing: the form after the second
    event is the form after the first. *)
Theorem repeated_input_event_is_ignored (n : nat) (m : FormModel)
    (val : jsstring) :
  within_limit m ->
  exists m',
    inputEvent (S (S n)) m val = Some m'
    ∧ inputEvent (S (S n)) m' (input m') = Some m'.
Proof.
  intros Hm.
  destruct (inputEvent_step n m val Hm)
    as (m' & Hev & Hm' & _ & _ & _ & _ & _ & Hcases).
  exists m'. split; [done |]. unfold inputEvent.
  replace (mkFormModel (bodyLength m') (parsedLines m') (body m') (line m')
             (input m') (sent m') (viewlog m')) with m' by (by destruct m').
  assert (line m' = input m' -> parseInput (S (S n)) m' (input m') = Some m')
    as Hsame.
  { intros Hl. destruct Hm' as [_ Hhi].
    rewrite parseInput_fits by (unfold exceeding; rewrite Hl; lia).
    f_equal. apply classify_irregular; rewrite Hl; lia. }
  destruct Hcases as [(c & Hin & Hl & _)
                     | [(c & _ & Hin & _) | (Hl & Hbl & _ & Hexc & Hc)]].
  - apply Hsame. by rewrite Hin, Hl.
  - by apply Hsame.
  - rewrite parseInput_fits; [by rewrite Hc |].
    unfold exceeding in *. rewrite Hl, Hbl. lia.
Qed.

Lemma repeated_input_event_is_ignored_witness :
  exists m',
    inputEvent 2 (mkFormModel 1999 0 [] [104; 105] [] [] [])
      [104; 105; 33; 33; 33] = Some m'
    ∧ inputEvent 2 m' (input m') = Some m'.
Proof.
  apply (repeated_input_event_is_ignored 0
           (mkFormModel 1999 0 [] [104; 105] [] [] [])
           [104; 105; 33; 33; 33]).
  split; vm_compute; discriminate.
Defined.

(** X5: after an input event on a form within the limit, what is left in
    [$input] is the start of what was typed, all of it when it did not
    exceed the limit, and in every case no longer than the limit allows:
    the counter before the event plus the length left in [$input] less the
    length of the committed line before the event is at most 2000. *)
Theorem input_left_fits_the_limit (n : nat) (m : FormModel)
    (val : jsstring) :
  within_limit m ->
  exists m',
    inputEvent (S (S n)) m val = Some m'
    ∧ (exists dropped, val = input m' ++ dropped)
    ∧ (exceeding m val <= 0 -> input m' = val)
    ∧ bodyLength m + (len (input m') - len (line m)) <= 2000.
Proof.
  intros Hm.
  destruct (inputEvent_step n m val Hm)
    as (m' & Hev & Hm' & _ & _ & _ & Hdrop & Hfit & Hcases).
  exists m'. do 3 (split; [done |]).
  destruct Hm' as [_ Hhi]. destruct Hm as [_ Hhi0].
  unfold exceeding, MAX_BODY_LENGTH in *.
  destruct Hcases as [(c & Hin & _ & Hbl & _)
                     | [(c & Hl & Hin & Hbl & _) | (_ & _ & _ & Hexc & _)]].
  - rewrite Hin, len_app. change (len [c]) with 1. lia.
  - rewrite Hin, Hl, len_app. change (len [c]) with 1. lia.
  - lia.
Qed.

Lemma input_left_fits_the_limit_witness :
  exists m',
    inputEvent 2 (mkFormModel 1999 0 [] [104; 105] [] [] [])
      [104; 105; 33; 33; 33] = Some m'
    ∧ exists dropped, [104; 105; 33; 33; 33] = input m' ++ dropped.
Proof.
  destruct (input_left_fits_the_limit 0
              (mkFormModel 1999 0 [] [104; 105] [] [] [])
              [104; 105; 33; 33; 33])
    as (m' & Hev & Hdrop & _).
  - split; vm_compute; discriminate.
  - exists m'. split; [exact Hev | exact Hdrop].
Defined.

(** ** The body and its closed lines *)

Section BodyFacts.

Context {SpliceResponse : Type}.
Variable spliceLine : jsstring -> SpliceResponse -> jsstring.

Implicit Types (m : FormModel) (s : jsstring) (op : operation SpliceResponse).
Implicit Types ops : list (operation SpliceResponse).

(** The pieces of a string with one more code unit at its end. *)
Lemma split_nl_snoc s :
  exists closed l,
    split_nl s = closed ++ [l]
    ∧ (forall c, c <> NL -> split_nl (s ++ [c]) = closed ++ [l ++ [c]])
    ∧ split_nl (s ++ [NL]) = closed ++ [l; []].
Proof.
  induction s as [| a r (closed & l & Hr & Hc & Hn)].
  - exists [], []. split; [done |]. split; [| done].
    intros c Hc. cbn [app split_nl]. by case_decide.
  - destruct (decide (a = NL)) as [-> | Ha].
    + exists ([] :: closed), l. cbn [app split_nl].
      rewrite !decide_True by done. rewrite Hr, Hn. split; [done |].
      split; [| done]. intros c Hcn. rewrite decide_True by done.
      by rewrite Hc.
    + destruct closed as [| h t].
      * exists [], (a :: l). cbn [app split_nl].
        rewrite !decide_False by done. rewrite Hr, Hn. split; [done |].
        split; [| done]. intros c Hcn. rewrite decide_False by done.
        by rewrite Hc.
      * exists ((a :: h) :: t), l. cbn [app split_nl].
        rewrite !decide_False by done. rewrite Hr, Hn. split; [done |].
        split; [| done]. intros c Hcn. rewrite decide_False by done.
        by rewrite Hc.
Qed.

Lemma lastBodyLine_split m closed l :
  split_nl (body m) = closed ++ [l] -> lastBodyLine m = Some l.
Proof. intros H. unfold lastBodyLine. rewrite H. apply last_index_app. Qed.

Lemma fromCharCode_NL code :
  fromCharCode code = [NL] ↔ code `mod` 65536 = NL.
Proof. unfold fromCharCode. split; [by intros [= ?] | by intros ->]. Qed.

Lemma parseInput_frame fuel : forall m val m',
  parseInput fuel m val = Some m' ->
  body m' = body m ∧ viewlog m' = viewlog m.
Proof.
  induction fuel as [| fuel IH]; intros m val m' H; [done |].
  simpl in H. case_decide.
  - by destruct (IH _ _ _ H).
  - injection H as <-.
    by destruct (classify_cases m val) as [(c & _ & ->) | [(c & _ & ->) | ->]].
Qed.

Lemma nl_count_app s t : nl_count (s ++ t) = nl_count s + nl_count t.
Proof. unfold nl_count, jsstring. rewrite filter_app, length_app. lia. Qed.

Lemma nl_count_nonneg s : 0 <= nl_count s.
Proof. unfold nl_count. lia. Qed.

Lemma nl_count_fromCharCode code :
  nl_count (fromCharCode code) =
  if decide (fromCharCode code = [NL]) then 1 else 0.
Proof.
  unfold nl_count, fromCharCode, jsstring. rewrite filter_cons, filter_nil.
  repeat case_decide; try done; exfalso.
  - match goal with H : _ <> _ |- _ => apply H end. by f_equal.
  - match goal with H : _ = [NL] |- _ => injection H as H end. done.
Qed.

Lemma nl_count_backspace s : nl_count (slice s 0 (-1)) <= nl_count s.
Proof.
  rewrite slice_0_m1. set (k := Z.to_nat (len s - 1)).
  assert (nl_count s = nl_count (take k s) + nl_count (drop k s)) as ->
    by (by rewrite <- nl_count_app, take_drop).
  pose proof (nl_count_nonneg (drop k s)). lia.
Qed.

(** A property of forms that the operations keep holds at the end of a
    run. *)
Lemma run_invariant (P : FormModel -> Prop)
    (Q : operation SpliceResponse -> Prop) n :
  (forall m op m',
     Q op -> P m -> perform spliceLine (S (S n)) m op = Some m' -> P m') ->
  forall ops m,
    Forall Q ops -> within_limit m -> P m ->
    exists m', run spliceLine (S (S n)) m ops = Some m' ∧ P m'.
Proof.
  intros Hstep ops. induction ops as [| op ops IH]; intros m HQ Hm HP.
  - by exists m.
  - apply Forall_cons in HQ as [Hop HQ].
    destruct (perform_within_limit spliceLine n m op Hm) as (m1 & H1 & Hm1 & _).
    assert (P m1) as HP1 by (by apply (Hstep m op m1)).
    destruct (IH m1 HQ Hm1 HP1) as (m' & Hrun & HP').
    exists m'. cbn [run]. rewrite H1. by cbn [mbind option_bind].
Qed.

End BodyFacts.

Section AppendFacts.

Implicit Types (m : FormModel) (code : Z).

(** [append], by whether the character is the line feed. *)
Lemma append_cases m code :
  (fromCharCode code = [NL]
   ∧ append m code =
     mkFormModel (bodyLength m) (parsedLines m + 1) (body m ++ [NL]) (line m)
       (input m) (sent m)
       (viewlog m ++ [ParseTerminatedLine (lastBodyLine m);
                      ReplaceNthSpan (parsedLines m)]))
  ∨ (exists x, x <> NL ∧ fromCharCode code = [x]
       ∧ append m code =
         mkFormModel (bodyLength m) (parsedLines m) (body m ++ [x]) (line m)
           (input m) (sent m) (viewlog m)).
Proof.
  unfold append. destruct (decide (fromCharCode code = [NL])) as [He | Hne].
  - left. split; [done |]. by rewrite He.
  - right. exists (code `mod` 65536). split; [| done].
    intros Hx. apply Hne. unfold fromCharCode. by rewrite Hx.
Qed.

Lemma replaced_indices_app l1 l2 :
  replaced_indices (l1 ++ l2) = replaced_indices l1 ++ replaced_indices l2.
Proof. unfold replaced_indices. apply omap_app. Qed.

Lemma parser_lines_app l1 l2 :
  parser_lines (l1 ++ l2) = parser_lines l1 ++ parser_lines l2.
Proof. unfold parser_lines. apply omap_app. Qed.

Lemma indices_succ (p : Z) :
  0 <= p ->
  Z.of_nat <$> seq 0 (Z.to_nat (p + 1)) =
  (Z.of_nat <$> seq 0 (Z.to_nat p)) ++ [p].
Proof.
  intros Hp. replace (Z.to_nat (p + 1)) with (S (Z.to_nat p)) by lia.
  rewrite seq_S, fmap_app. cbn. by rewrite Z2Nat.id.
Qed.

End AppendFacts.

(** X6: [backspace] takes back from the body what one [append] put in,
    but not from the count of parsed lines: after the append of a line
    feed and a backspace the body is what it was and the count is one
    more.  On an empty body [backspace] changes nothing; on any other it
    makes the body one shorter. *)
Theorem backspace_undoes_append_on_body (m : FormModel) (code : Z) :
  body (backspace (append m code)) = body m
  ∧ parsedLines (backspace (append m code)) =
    parsedLines m + (if decide (fromCharCode code = [NL]) then 1 else 0)
  ∧ (body m = [] -> backspace m = m)
  ∧ len (body (backspace m)) = Z.max 0 (len (body m) - 1).
Proof.
  split; [| split; [| split]].
  - unfold backspace. cbn [body]. rewrite body_append. apply slice_drop_last.
  - unfold backspace. cbn [parsedLines]. apply append_parsedLines.
  - intros Hb. destruct m as [bl pl bd ln inp st vl].
    cbn [body] in Hb. by subst bd.
  - unfold backspace. cbn [body]. rewrite slice_0_m1.
    unfold len. rewrite length_take. lia.
Qed.

(** X7: the last line of the body after an [append] is the last line
    before it with the character at its end, and the empty line when the
    character is the line feed. *)
Theorem lastBodyLine_after_append (m : FormModel) (code : Z) :
  exists l,
    lastBodyLine m = Some l
    ∧ lastBodyLine (append m code) =
      Some (if decide (fromCharCode code = [NL]) then []
            else l ++ fromCharCode code).
Proof.
  destruct (split_nl_snoc (body m)) as (closed & l & Hs & Hc & Hn).
  exists l. split; [by eapply lastBodyLine_split |].
  destruct (append_cases m code) as [[He Ha] | (x & Hx & He & Ha)];
    rewrite Ha, He.
  - rewrite decide_True by done.
    apply (lastBodyLine_split _ (closed ++ [l])). cbn [body].
    by rewrite Hn, <- app_assoc.
  - rewrite decide_False by (by intros [= ?]).
    apply (lastBodyLine_split _ closed). cbn [body]. by apply Hc.
Qed.

(** X8: a mirror that has only had appends has handed the parser every
    closed line of its body, in order, and [terminateLine] the indices
    0, 1, 2 and so on: the pieces of the body but the last are the lines
    parsed, and the count of parsed lines is their number. *)
Theorem parser_gets_every_closed_line (codes : list Z) :
  exists closed l,
    split_nl (body (appended (fresh []) codes)) = closed ++ [l]
    ∧ parser_lines (viewlog (appended (fresh []) codes)) = Some <$> closed
    ∧ parsedLines (appended (fresh []) codes) = Z.of_nat (length closed)
    ∧ replaced_indices (viewlog (appended (fresh []) codes)) =
      Z.of_nat <$> seq 0 (length closed).
Proof.
  induction codes as [| code codes (closed & l & Hs & Hp & Hn & Hi)]
    using rev_ind.
  - by exists [], [].
  - unfold appended in *. rewrite foldl_app. cbn [foldl].
    set (m := foldl append (fresh []) codes) in *.
    destruct (split_nl_snoc (body m)) as (closed' & l' & Hs' & Hc & Hnl).
    rewrite Hs in Hs'. apply app_inj_tail in Hs' as [<- <-].
    destruct (append_cases m code) as [[He Ha] | (x & Hx & He & Ha)];
      rewrite Ha; cbn [body viewlog parsedLines].
    + exists (closed ++ [l]), []. split; [by rewrite Hnl, <- app_assoc |].
      rewrite parser_lines_app, replaced_indices_app, Hp, Hi, Hn.
      rewrite (lastBodyLine_split m closed l Hs).
      split; [by rewrite fmap_app |]. rewrite length_app. cbn [length].
      split; [lia |]. rewrite Nat.add_1_r, seq_S, fmap_app. done.
    + exists closed, (l ++ [x]). by rewrite Hc.
Qed.

(** X9: on every run of operations on a fresh form, whatever is
    appended, removed, spliced or typed, [terminateLine] has been called
    with the indices 0, 1, 2 and so on, one for each parsed line and in
    that order: no index is used twice and none is left out. *)
Theorem terminateLine_indices_are_consecutive {SpliceResponse : Type}
    (spliceLine : jsstring -> SpliceResponse -> jsstring)
    (n : nat) (b : jsstring) (ops : list (operation SpliceResponse)) :
  exists m',
    run spliceLine (S (S n)) (fresh b) ops = Some m'
    ∧ 0 <= parsedLines m'
    ∧ replaced_indices (viewlog m') =
      Z.of_nat <$> seq 0 (Z.to_nat (parsedLines m')).
Proof.
  apply (run_invariant spliceLine
           (λ m, 0 <= parsedLines m
                 ∧ replaced_indices (viewlog m) =
                   Z.of_nat <$> seq 0 (Z.to_nat (parsedLines m)))
           (λ _, True) n).
  - intros m op m' _ [Hp Hi] Hop.
    destruct op as [code | | msg | val]; cbn [perform] in Hop.
    + injection Hop as <-.
      destruct (append_cases m code) as [[_ Ha] | (x & _ & _ & Ha)];
        rewrite Ha; cbn [parsedLines viewlog]; [| done].
      split; [lia |].
      rewrite replaced_indices_app, Hi, indices_succ by done. done.
    + by injection Hop as <-.
    + injection Hop as <-. unfold splice. by destruct (lastBodyLine m).
    + destruct (parseInput_frame _ _ _ _ Hop) as [_ Hv].
      by rewrite Hv, (parseInput_parsedLines _ _ _ _ Hop).
  - by apply Forall_true.
  - apply fresh_within_limit.
  - done.
Qed.

(** X10: on every run of operations on a fresh form, the body never has
    more line feeds than it had at first plus the count of parsed lines,
    and it has as many when nothing was removed from it: a backspace that
    takes a line feed out of the body does not take the parsed line off
    the count. *)
Theorem parsed_lines_bound_line_feeds {SpliceResponse : Type}
    (spliceLine : jsstring -> SpliceResponse -> jsstring)
    (n : nat) (b : jsstring) (ops : list (operation SpliceResponse)) :
  exists m',
    run spliceLine (S (S n)) (fresh b) ops = Some m'
    ∧ nl_count (body m') <= nl_count b + parsedLines m'
    ∧ (Forall (λ op, op <> OpBackspace) ops ->
       nl_count (body m') = nl_count b + parsedLines m').
Proof.
  destruct (run_invariant spliceLine
              (λ m, nl_count (body m) <= nl_count b + parsedLines m)
              (λ _, True) n) with (ops := ops) (m := fresh b)
    as (m' & Hrun & Hle).
  - intros m op m1 _ Hm Hop.
    destruct op as [code | | msg | val]; cbn [perform] in Hop.
    + injection Hop as <-.
      rewrite body_append, nl_count_app, nl_count_fromCharCode,
        append_parsedLines. lia.
    + injection Hop as <-. unfold backspace. cbn [body parsedLines].
      pose proof (nl_count_backspace (body m)). lia.
    + injection Hop as <-. unfold splice. by destruct (lastBodyLine m).
    + destruct (parseInput_frame _ _ _ _ Hop) as [Hb _].
      by rewrite Hb, (parseInput_parsedLines _ _ _ _ Hop).
  - by apply Forall_true.
  - apply fresh_within_limit.
  - cbn. lia.
  - exists m'. split; [done |]. split; [done |]. intros Hno.
    destruct (run_invariant spliceLine
                (λ m, nl_count (body m) = nl_count b + parsedLines m)
                (λ op, op <> OpBackspace) n) with (ops := ops) (m := fresh b)
      as (m'' & Hrun' & Heq).
    + intros m op m1 Hne Hm Hop.
      destruct op as [code | | msg | val]; cbn [perform] in Hop.
      * injection Hop as <-.
        rewrite body_append, nl_count_app, nl_count_fromCharCode,
          append_parsedLines. lia.
      * done.
      * injection Hop as <-. unfold splice. by destruct (lastBodyLine m).
      * destruct (parseInput_frame _ _ _ _ Hop) as [Hb _].
        by rewrite Hb, (parseInput_parsedLines _ _ _ _ Hop).
    + done.
    + apply fresh_within_limit.
    + cbn. lia.
    + rewrite Hrun in Hrun'. by injection Hrun' as ->.
Qed.

(** ** The board navigation *)

Module TemplatesFacts.

Import Templates.

#[local] Open Scope string_scope.

Lemma sapp_assoc (a b c : string) : (a +:+ b) +:+ c = a +:+ (b +:+ c).
Proof.
  induction a as [| x a IH]; [done |].
  change ((String x a +:+ b) +:+ c) with (String x ((a +:+ b) +:+ c)).
  by rewrite IH.
Qed.

Lemma sapp_nil_r (a : string) : a +:+ EmptyString = a.
Proof.
  induction a as [| x a IH]; [done |].
  change (String x a +:+ EmptyString) with (String x (a +:+ EmptyString)).
  by rewrite IH.
Qed.

Lemma boardLink_true name url :
  boardLink true name url = " / " +:+ plain_link name url.
Proof. done. Qed.

Lemma separated_app l1 l2 :
  separated (l1 ++ l2)%list = separated l1 +:+ separated l2.
Proof.
  induction l1 as [| x l1 IH]; [done |].
  cbn [app separated foldr]. fold (separated (l1 ++ l2)%list). fold (separated l1).
  by rewrite IH, !sapp_assoc.
Qed.

Lemma concat_separated x l :
  String.concat " / " (x :: l) = x +:+ separated l.
Proof.
  revert x. induction l as [| y l IH]; intros x.
  - cbn [String.concat separated foldr]. by rewrite sapp_nil_r.
  - change (String.concat " / " (x :: y :: l))
      with (x +:+ " / " +:+ String.concat " / " (y :: l)).
    by rewrite IH.
Qed.

(** The first loop past its first round: every link after a separator. *)
Lemma board_links_later staff boards : forall i html,
  board_links staff (S i) boards html =
  html +:+ separated ((λ board, plain_link board ("../" +:+ board +:+ "/"))
                        <$> filter (λ board, board <> staff) boards).
Proof.
  induction boards as [| board rest IH]; intros i html.
  - cbn [board_links filter fmap list_fmap separated foldr]. by rewrite sapp_nil_r.
  - cbn [board_links]. rewrite filter_cons.
    destruct (decide (board = staff)) as [-> | Hne].
    + rewrite decide_False by (by intros ?). apply IH.
    + rewrite decide_True by done. rewrite IH, fmap_cons.
      rewrite bool_decide_eq_true_2 by lia. rewrite boardLink_true.
      cbn [separated foldr]. by rewrite !sapp_assoc.
Qed.

Lemma pseudo_links_separated links : forall html,
  pseudo_links links html =
  html +:+ separated ((λ link, plain_link link.1 link.2) <$> links).
Proof.
  induction links as [| link rest IH]; intros html.
  - cbn [pseudo_links fmap list_fmap separated foldr]. by rewrite sapp_nil_r.
  - cbn [pseudo_links]. rewrite IH, fmap_cons, boardLink_true.
    cbn [separated foldr]. by rewrite !sapp_assoc.
Qed.

End TemplatesFacts.

Import Templates TemplatesFacts.

(** X11: when the first of the enabled boards (or, with none enabled,
    the board of all boards) is not the staff board, the navigation is
    its opening, the links of all boards but the staff board and of the
    configured links, in order, with the separator between each two of
    them and nowhere else, and its closing. *)
Theorem boardNavigation_separates_links (conf : Boards) :
  head (Enabled conf ++ ["all"%string]) <> Some (Staff conf) ->
  boardNavigation conf =
  (nav_open +:+ String.concat " / " (nav_links conf) +:+ nav_close)%string.
Proof.
  intros Hhead. unfold boardNavigation, nav_links.
  destruct (Enabled conf ++ ["all"%string])%list as [| board rest] eqn:Hb;
    [by destruct (Enabled conf) |].
  cbn [head] in Hhead. assert (board <> Staff conf) as Hne by congruence.
  cbn [board_links]. rewrite decide_False by done.
  rewrite bool_decide_eq_false_2 by lia.
  rewrite board_links_later, pseudo_links_separated.
  rewrite filter_cons, decide_True by done. rewrite fmap_cons.
  cbn [app]. rewrite concat_separated, separated_app.
  fold nav_open. unfold nav_close, plain_link. by rewrite !sapp_assoc.
Qed.

Lemma boardNavigation_separates_links_witness :
  let conf := mkBoards ["a"; "staff"; "g"]%string "staff"%string
                [("news", "/news/")%string] in
  boardNavigation conf =
  (nav_open
   +:+ plain_link "a" "../a/" +:+ " / " +:+ plain_link "g" "../g/"
   +:+ " / " +:+ plain_link "all" "../all/"
   +:+ " / " +:+ plain_link "news" "/news/"
   +:+ nav_close)%string.
Proof.
  intros conf.
  rewrite (boardNavigation_separates_links conf) by (vm_compute; discriminate).
  vm_compute. reflexivity.
Defined.

(** X12: when the staff board is the first of the enabled boards, it is
    passed over without the next link taking the first place: every link
    of the navigation, the first one too, comes after a separator. *)
Theorem boardNavigation_staff_board_first (conf : Boards) :
  head (Enabled conf ++ ["all"%string]) = Some (Staff conf) ->
  boardNavigation conf =
  (nav_open +:+ separated (nav_links conf) +:+ nav_close)%string.
Proof.
  intros Hhead. unfold boardNavigation, nav_links.
  destruct (Enabled conf ++ ["all"%string])%list as [| board rest] eqn:Hb;
    [done |].
  cbn [head] in Hhead. injection Hhead as ->.
  cbn [board_links]. rewrite decide_True by done.
  rewrite board_links_later, pseudo_links_separated.
  rewrite filter_cons, decide_False by (by intros ?).
  rewrite separated_app.
  fold nav_open. unfold nav_close. by rewrite !sapp_assoc.
Qed.

Lemma boardNavigation_staff_board_first_witness :
  let conf := mkBoards ["staff"; "a"]%string "staff"%string [] in
  boardNavigation conf =
  (nav_open
   +:+ " / " +:+ plain_link "a" "../a/"
   +:+ " / " +:+ plain_link "all" "../all/"
   +:+ nav_close)%string.
Proof.
  intros conf.
  rewrite (boardNavigation_staff_board_first conf) by reflexivity.
  vm_compute. reflexivity.
Defined.

(** X13: [Get] after [Set] gives the store that was set under the name
    and what was there before under every other name; the later of two
    stores set under one name is the one that stays; and a name nothing
    was set under gives the store with no HTML and the empty hash. *)
Theorem Get_after_Set (resources : gmap string Store) (name other : string)
    (s s' : Store) :
  Get (Set_ resources name s) name = s
  ∧ (other <> name -> Get (Set_ resources name s) other = Get resources other)
  ∧ Set_ (Set_ resources name s) name s' = Set_ resources name s'
  ∧ (resources !! name = None -> Get resources name = zero_Store)
  ∧ Get ∅ name = zero_Store.
Proof.
  unfold Get, Set_. split; [by rewrite lookup_insert_eq |].
  split; [intros Hne; by rewrite lookup_insert_ne |].
  split; [apply insert_insert_eq |].
  split; [by intros -> | by rewrite lookup_empty].
Qed.

Import Lifecycle LifecycleFacts.

(** X14: [extractAttrs] run on its own result changes nothing; what it
    returns is part of what it was given and holds no function; and an
    object without functions comes back whole. *)
Theorem extractAttrs_is_idempotent (src : gmap string value) :
  extractAttrs (extractAttrs src) = extractAttrs src
  ∧ extractAttrs src ⊆ src
  ∧ (forall key v, extractAttrs src !! key = Some v -> is_function v = false)
  ∧ ((forall key v, src !! key = Some v -> is_function v = false) ->
     extractAttrs src = src).
Proof.
  split; [| split; [| split]].
  - apply map_eq. intros key. rewrite !extractAttrs_lookup.
    destruct (src !! key) as [v |]; [| done].
    destruct (is_function v) eqn:Hf; [done |]. by rewrite Hf.
  - apply map_subseteq_spec. intros key v Hv.
    by apply extractAttrs_only in Hv as [? _].
  - intros key v Hv. by apply extractAttrs_only in Hv as [_ ?].
  - intros Hno. apply map_eq. intros key. rewrite extractAttrs_lookup.
    destruct (src !! key) as [v |] eqn:Hv; [| done].
    by rewrite (Hno key v Hv).
Qed.

(** X16: [parseInput] returns exactly when the counter is no further
    above the limit than the committed line is long, whatever the value.
    Then two nested calls are enough, and any more give the same form;
    otherwise every shortened value exceeds again and no number of nested
    calls is enough. *)
Theorem parseInput_returns_iff (m : FormModel) (val : jsstring) :
  ((exists fuel m', parseInput fuel m val = Some m')
   ↔ bodyLength m <= 2000 + len (line m))
  ∧ (bodyLength m <= 2000 + len (line m) ->
     parseInput 2 m val = Some (parsed m val)
     ∧ forall n, parseInput (S (S n)) m val = Some (parsed m val))
  ∧ (2000 + len (line m) < bodyLength m ->
     forall fuel, parseInput fuel m val = None).
Proof.
  split; [split |].
  - intros (fuel & m' & H).
    destruct (decide (bodyLength m <= 2000 + len (line m))) as [| Hgt];
      [done |].
    rewrite parseInput_diverges in H by (unfold MAX_BODY_LENGTH; lia). done.
  - intros Hle. exists 2%nat, (parsed m val). by apply parseInput_parsed.
  - split.
    + intros Hle. split; [by apply parseInput_parsed |].
      intros n. by apply parseInput_parsed.
    + intros Hgt fuel. apply parseInput_diverges.
      unfold MAX_BODY_LENGTH. lia.
Qed.

(** ** The scheduled replacement, run *)

Module DOMFacts.

Import DOM.

(** Induction on a node with its children. *)
Lemma node_children_ind (P : node -> Prop) :
  (forall data, P (Text data)) ->
  (forall tag children, Forall P children -> P (Element tag children)) ->
  forall n, P n.
Proof.
  intros HT HE.
  exact (fix go (n : node) : P n :=
           match n with
           | Text data => HT data
           | Element tag children =>
               HE tag children
                 ((fix all (l : list node) : Forall P l :=
                     match l with
                     | [] => @List.Forall_nil _ P
                     | c :: r => @List.Forall_cons _ P c r (go c) (all r)
                     end) children)
           end).
Qed.

(** No child element has the index 0. *)
Lemma query_siblings_zero query i nodes :
  Forall (λ n, query n = None) nodes -> 1 <= i ->
  query_siblings query 0 i nodes = None.
Proof.
  intros Hall. revert i.
  induction Hall as [| n rest Hn _ IH]; intros i Hi; [done |].
  destruct n as [data | tag children]; cbn [query_siblings]; [by apply IH |].
  rewrite decide_False by lia. rewrite Hn. apply IH. lia.
Qed.

Lemma replace_siblings_zero replace i frag nodes :
  Forall (λ n, replace n = None) nodes -> 1 <= i ->
  replace_siblings replace 0 i frag nodes = None.
Proof.
  intros Hall. revert i.
  induction Hall as [| n rest Hn _ IH]; intros i Hi; [done |].
  destruct n as [data | tag children]; cbn [replace_siblings].
  - by rewrite IH.
  - rewrite decide_False by lia. rewrite Hn, IH by lia. done.
Qed.

(** [span:nth-child(0)] matches nothing, whatever is in the page. *)
Lemma querySelector_zero parent : querySelector 0 parent = None.
Proof.
  induction parent as [data | tag children IH] using node_children_ind;
    [done |].
  cbn [querySelector]. by apply query_siblings_zero.
Qed.

Lemma replaceNthSpan_zero frag parent : replaceNthSpan 0 frag parent = None.
Proof.
  induction parent as [data | tag children IH] using node_children_ind;
    [done |].
  cbn [replaceNthSpan]. by rewrite replace_siblings_zero.
Qed.

(** The replacement throws exactly when the lookup finds nothing. *)
Lemma replace_siblings_None query replace num frag nodes : forall i,
  Forall (λ n, replace n = None ↔ query n = None) nodes ->
  replace_siblings replace num i frag nodes = None
  ↔ query_siblings query num i nodes = None.
Proof.
  induction nodes as [| n rest IH]; intros i Hall; [done |].
  apply Forall_cons in Hall as [Hn Hall].
  destruct n as [data | tag children];
    cbn [replace_siblings query_siblings].
  - rewrite <- (IH i Hall).
    by destruct (replace_siblings replace num i frag rest).
  - case_decide; [done |].
    destruct (replace (Element tag children)) as [el |] eqn:Hr;
      destruct (query (Element tag children)) as [found |] eqn:Hq.
    + done.
    + destruct Hn as [_ Hn]. by specialize (Hn eq_refl).
    + destruct Hn as [Hn _]. by specialize (Hn eq_refl).
    + rewrite <- (IH (i + 1) Hall).
      by destruct (replace_siblings replace num (i + 1) frag rest).
Qed.

Lemma replaceNthSpan_None num frag parent :
  replaceNthSpan num frag parent = None ↔ querySelector num parent = None.
Proof.
  induction parent as [data | tag children IH] using node_children_ind;
    [done |].
  cbn [replaceNthSpan querySelector].
  rewrite <- (replace_siblings_None (querySelector num)
                (replaceNthSpan num frag) num frag children 1 IH).
  by destruct (replace_siblings (replaceNthSpan num frag) num 1 frag children).
Qed.

End DOMFacts.

(** ** Closing the first line *)

Import DOM DOMFacts.

(** C4, as the code runs: a line feed appended to a form with no parsed
    line yet makes the count of parsed lines 1 and hands [terminateLine]
    the count as it was, 0.  The parser is called with the last line of
    the body as it stood before the line feed went in, the part after its
    last line feed, and the replacement is scheduled for
    [span:nth-child(0)].  That selector matches no element of any
    blockquote, since [nth-child] counts from 1: the lookup gives null,
    [el.replaceWith] throws, and the line is not replaced by its parsed
    form. *)
Theorem first_closed_line_is_not_replaced (m : FormModel) (code : Z)
    (render : option jsstring -> list node) (frag : list node)
    (blockquote : node) :
  fromCharCode code = [NL] ->
  parsedLines m = 0 ->
  parsedLines (append m code) = 1
  ∧ body (append m code) = body m ++ [NL]
  ∧ (exists l,
       lastBodyLine m = Some l
       ∧ (NL ∉ l)
       ∧ (body m = l ∨ exists p, body m = p ++ NL :: l)
       ∧ viewlog (append m code) =
           viewlog m ++ [ParseTerminatedLine (Some l); ReplaceNthSpan 0]
       ∧ flush render frag [ParseTerminatedLine (Some l); ReplaceNthSpan 0]
           blockquote = None)
  ∧ querySelector 0 blockquote = None
  ∧ replaceNthSpan 0 frag blockquote = None.
Proof.
  intros Hc Hp.
  destruct (append_cases m code) as [[_ Ha] | (x & Hx & He & _)];
    [| rewrite Hc in He; by injection He as <-].
  rewrite Ha, Hp. split; [done |]. split; [done |]. split.
  - destruct (lastBodyLine_after_last_nl m) as (l & Hl & Hnl & Hb).
    exists l. do 3 (split; [done |]). cbn [viewlog]. rewrite Hl.
    split; [done |]. cbn [flush]. by rewrite replaceNthSpan_zero.
  - split; [apply querySelector_zero | apply replaceNthSpan_zero].
Qed.

Lemma first_closed_line_is_not_replaced_witness :
  let m := mkFormModel 4 0 [97; 10; 104; 105] [104; 105] [] [] [] in
  let placeholder := Element "span" [Text [104; 105]] in
  let blockquote := Element "blockquote" [placeholder; Element "textarea" []] in
  let render := λ l : option jsstring, [Element "em" [Text (default [] l)]] in
  parsedLines (append m 10) = 1
  ∧ viewlog (append m 10) =
      [ParseTerminatedLine (Some [104; 105]); ReplaceNthSpan 0]
  ∧ flush render [] (viewlog (append m 10)) blockquote = None
  ∧ querySelector 0 blockquote = None
  ∧ querySelector 1 blockquote = Some placeholder
  ∧ replaceNthSpan 1 (render (Some [104; 105])) blockquote =
      Some (Element "blockquote"
              [Element "em" [Text [104; 105]]; Element "textarea" []]).
Proof.
  intros m placeholder blockquote render.
  destruct (first_closed_line_is_not_replaced m 10 render [] blockquote
              eq_refl eq_refl)
    as (Hp & _ & (l & Hl & _ & _ & Hv & Hf) & Hq & _).
  assert (l = [104; 105]) as -> by (vm_compute in Hl; congruence).
  split; [exact Hp |]. split; [exact Hv |]. split; [rewrite Hv; exact Hf |].
  split; [exact Hq |]. split; reflexivity.
Defined.
